(** * Goto-reducing CFG rewrites of the decompiler: a shallow embedding

    Source files embedded here:
    - [optimization_passes/cross_jump_reverter.py]   (module [CrossJumpReverter])
    - [optimization_passes/new_lowered_switch_simplifier.py]
      (modules [CaseM] and [LoweredSwitchSimplifier])

    AIL blocks, networkx graphs and Python exceptions are modelled first,
    then the two passes, then the theorems. *)

From Stdlib Require Import String ZArith Bool Lia Arith List.
Import ListNotations.
Open Scope Z_scope.

(* ================================================================== *)
(** ** Python exceptions as an error monad *)

Inductive exn : Type :=
| NetworkXError
| KeyError
| IndexError
| StopIteration
| AssertionError
| OutOfFuel.  (* not a Python exception: the step budget of a loop of the
                 model ran out where the Python loop would go on *)

Inductive result (A : Type) : Type :=
| Ok (a : A)
| Raise (e : exn).
Arguments Ok {A} a.
Arguments Raise {A} e.

Definition bind {A B : Type} (m : result A) (k : A -> result B) : result B :=
  match m with
  | Ok a => k a
  | Raise e => Raise e
  end.

Notation "x <- m ;; k" := (bind m (fun x => k))
  (at level 61, m at next level, right associativity).
Notation "' p <- m ;; k" := (bind m (fun p => k))
  (at level 61, p pattern, m at next level, right associativity).

(* ================================================================== *)
(** ** AIL expressions, statements and blocks (ailment)

    Only the constructors the two passes inspect are kept apart; every
    other expression or statement class is [OtherExpr] / [OtherStmt].
    The tags [idx] and [ins_addr] of statements are not modelled: the
    passes only copy them. *)

Inductive Expr : Type :=
| Const (value : Z) (bits : Z)
| Register (reg : Z)
| Load (addr : Expr)
| BinaryOp (op : string) (operand0 operand1 : Expr)
| UnaryOp (op : string) (operand : Expr)
| Convert (to_bits : Z) (operand : Expr)
| OtherExpr (tag : Z).

(** [Union[int, str]]: the value of a case is an integer or the string
    "default". *)
Inductive CaseValue : Type :=
| IntValue (v : Z)
| DefaultValue.

Inductive Stmt : Type :=
| Label (name : Z)
| Assignment (dst src : Expr)
| Jump (target : Expr)
| ConditionalJump (condition true_target false_target : Expr)
| IncompleteSwitchCaseHeadStatement
    (switch_variable : option Expr)
    (case_addrs : list (Block * CaseValue * Z * option Z))
| OtherStmt (tag : Z)
with Block : Type :=
| mkBlock (addr : Z) (idx : option Z) (statements : list Stmt).

Definition addr (b : Block) : Z := let '(mkBlock a _ _) := b in a.
Definition idx (b : Block) : option Z := let '(mkBlock _ i _) := b in i.
Definition statements (b : Block) : list Stmt := let '(mkBlock _ _ s) := b in s.

(** [cp.idx = i] on a copy. *)
Definition set_idx (b : Block) (i : option Z) : Block :=
  mkBlock (addr b) i (statements b).

(** [Block.copy(statements=...)]. *)
Definition Block_copy (b : Block) (stmts : option (list Stmt)) : Block :=
  match stmts with
  | None => b
  | Some s => mkBlock (addr b) (idx b) s
  end.

Definition Expr_eq_dec (a b : Expr) : {a = b} + {a <> b}.
Proof.
  decide equality; try apply Z.eq_dec; apply string_dec.
Defined.

Definition CaseValue_eq_dec (a b : CaseValue) : {a = b} + {a <> b}.
Proof. decide equality; apply Z.eq_dec. Defined.

Definition option_Z_eq_dec (a b : option Z) : {a = b} + {a <> b}.
Proof. decide equality; apply Z.eq_dec. Defined.

(** Python [==] on blocks compares address, index and statements. *)
Fixpoint Stmt_eq_dec (a b : Stmt) {struct a} : {a = b} + {a <> b}
with Block_eq_dec (a b : Block) {struct a} : {a = b} + {a <> b}.
Proof.
  - decide equality; try apply Z.eq_dec; try apply Expr_eq_dec.
    2: decide equality; apply Expr_eq_dec.
    apply list_eq_dec. intros x y.
    decide equality; try apply option_Z_eq_dec; try apply Z.eq_dec.
    decide equality; try apply Z.eq_dec.
    decide equality; try apply CaseValue_eq_dec.
  - decide equality; try apply Z.eq_dec; try apply option_Z_eq_dec.
    apply list_eq_dec. apply Stmt_eq_dec.
Defined.

Definition Block_eqb (a b : Block) : bool :=
  if Block_eq_dec a b then true else false.

Definition mem (b : Block) (l : list Block) : bool := existsb (Block_eqb b) l.

(** [list(set(l))] and dict keys: first occurrences, in order. *)
Fixpoint dedup (l : list Block) : list Block :=
  match l with
  | [] => []
  | x :: t => if mem x t then dedup t else x :: dedup t
  end.

(* ================================================================== *)
(** ** networkx.DiGraph

    A [DiGraph] is its adjacency dictionary [_adj]: an insertion-ordered
    map from each node to the insertion-ordered list of its successors.
    Iterating the graph walks the keys; [successors] reads one entry.
    Predecessors are read off the same table (the passes use them only
    as a set or through [in_degree]). Methods that raise in networkx
    return [Raise] here. *)

Module DiGraph.

Definition t : Type := list (Block * list Block).

Definition nodes (g : t) : list Block := map fst g.

Definition has_node (g : t) (n : Block) : bool := mem n (nodes g).

Fixpoint adj (g : t) (n : Block) : option (list Block) :=
  match g with
  | [] => None
  | (k, vs) :: r => if Block_eqb k n then Some vs else adj r n
  end.

Definition has_edge (g : t) (u v : Block) : bool :=
  match adj g u with
  | Some vs => mem v vs
  | None => false
  end.

(** [G.successors(n)]: raises NetworkXError when [n] is not a node. *)
Definition successors (g : t) (n : Block) : result (list Block) :=
  match adj g n with
  | Some vs => Ok vs
  | None => Raise NetworkXError
  end.

Definition pred_list (g : t) (n : Block) : list Block :=
  map fst (filter (fun kv => mem n (snd kv)) g).

(** [G.predecessors(n)]. *)
Definition predecessors (g : t) (n : Block) : result (list Block) :=
  if has_node g n then Ok (pred_list g n) else Raise NetworkXError.

(** [G.out_degree(n)] for a node of the graph. *)
Definition out_degree (g : t) (n : Block) : result Z :=
  vs <- successors g n ;; Ok (Z.of_nat (length vs)).

(** [G.in_degree[n]]: KeyError when [n] is not a node. *)
Definition in_degree_item (g : t) (n : Block) : result Z :=
  if has_node g n then Ok (Z.of_nat (length (pred_list g n)))
  else Raise KeyError.

(** [G.in_degree(n) == 0]: for a block that is not a node the call
    returns a degree view, which is not equal to [0]. *)
Definition in_degree_is_zero (g : t) (n : Block) : bool :=
  has_node g n && (length (pred_list g n) =? 0)%nat.

Definition add_node (g : t) (n : Block) : t :=
  if has_node g n then g else g ++ [(n, [])].

Definition add_succ (u v : Block) (kv : Block * list Block) : Block * list Block :=
  if Block_eqb (fst kv) u
  then (fst kv, if mem v (snd kv) then snd kv else snd kv ++ [v])
  else kv.

(** [G.add_edge(u, v)]: both endpoints become nodes when they are not. *)
Definition add_edge (g : t) (u v : Block) : t :=
  map (add_succ u v) (add_node (add_node g u) v).

Definition drop (n : Block) (l : list Block) : list Block :=
  filter (fun x => negb (Block_eqb x n)) l.

Definition del_succ (u v : Block) (kv : Block * list Block) : Block * list Block :=
  if Block_eqb (fst kv) u then (fst kv, drop v (snd kv)) else kv.

(** [G.remove_edge(u, v)]: raises NetworkXError when the edge is absent. *)
Definition remove_edge (g : t) (u v : Block) : result t :=
  if has_edge g u v then Ok (map (del_succ u v) g) else Raise NetworkXError.

(** [G.remove_node(n)]: raises NetworkXError when [n] is not a node;
    drops the node and every edge that touches it. *)
Definition remove_node (g : t) (n : Block) : result t :=
  if has_node g n
  then Ok (map (fun kv => (fst kv, drop n (snd kv)))
               (filter (fun kv => negb (Block_eqb (fst kv) n)) g))
  else Raise NetworkXError.

(** [networkx.DiGraph(g)] and [g.copy()]: a structural copy, same nodes
    and same successor lists in the same order. *)
Definition copy (g : t) : t := g.

Fixpoint add_edges (g : t) (es : list (Block * Block)) : t :=
  match es with
  | [] => g
  | (u, v) :: r => add_edges (add_edge g u v) r
  end.

(** The graph built by adding the given edges in order. *)
Definition of_edges (es : list (Block * Block)) : t := add_edges [] es.

End DiGraph.

(* ================================================================== *)
(** ** Gotos and the goto manager *)

(** Modelled from the spec: goto_manager.py is not among the sources.
    A Goto is a residual unstructured jump that carries the address it
    jumps to; the manager holds the set of gotos of one structuring run
    (a duplicate-free list here) and attributes gotos to the block that
    contains them through [gotos_in_block]. *)
Record Goto : Type := mkGoto { block_addr : Z; target_addr : Z }.

Record GotoManager : Type := mkGotoManager {
  gotos : list Goto;
  gotos_in_block : Block -> list Goto
}.

(* ================================================================== *)
(** ** cross_jump_reverter.py *)

Module CrossJumpReverter.

(** The fields of the pass object that [_analyze] reads and writes. *)
Record state : Type := mkState {
  graph_copy : option DiGraph.t;
  last_graph : option DiGraph.t;
  goto_manager : option GotoManager;
  initial_gotos : option (list Goto);
  node_idx : Z;
  out_graph : option DiGraph.t
}.

Definition set_graph_copy (st : state) (g : option DiGraph.t) : state :=
  mkState g (last_graph st) (goto_manager st) (initial_gotos st)
          (node_idx st) (out_graph st).
Definition set_last_graph (st : state) (g : option DiGraph.t) : state :=
  mkState (graph_copy st) g (goto_manager st) (initial_gotos st)
          (node_idx st) (out_graph st).
Definition set_goto_manager (st : state) (m : option GotoManager) : state :=
  mkState (graph_copy st) (last_graph st) m (initial_gotos st)
          (node_idx st) (out_graph st).
Definition set_initial_gotos (st : state) (i : option (list Goto)) : state :=
  mkState (graph_copy st) (last_graph st) (goto_manager st) i
          (node_idx st) (out_graph st).
Definition set_node_idx (st : state) (i : Z) : state :=
  mkState (graph_copy st) (last_graph st) (goto_manager st) (initial_gotos st)
          i (out_graph st).
Definition set_out_graph (st : state) (g : option DiGraph.t) : state :=
  mkState (graph_copy st) (last_graph st) (goto_manager st) (initial_gotos st)
          (node_idx st) g.

Section Pass.

(** The structuring run of [_structure_graph] (RegionIdentifier, then
    RecursiveStructurer, then RegionSimplifier): [None] when the
    structurer's result has no nodes, otherwise the goto manager of the
    simplified result. *)
Variable structure : DiGraph.t -> option GotoManager.

(** [utils.to_ail_supergraph]. *)
Variable to_ail_supergraph : DiGraph.t -> DiGraph.t.

(** [_structure_graph]: returns [(success, graph_has_gotos)]. The field
    [graph_copy] is [None] only once the loop of [_analyze] has left. *)
Definition _structure_graph (st : state) : state * (bool * bool) :=
  let st := set_goto_manager st None in
  match graph_copy st with
  | None => (st, (false, false))
  | Some g =>
      match structure g with
      | None => (st, (false, false))
      | Some gm =>
          let st := set_goto_manager st (Some gm) in
          let st := match initial_gotos st with
                    | None => set_initial_gotos st (Some (gotos gm))
                    | Some _ => st
                    end in
          (st, (true, negb (length (gotos gm) =? 0)%nat))
      end
  end.

(** The first loop of [_analyze_core], for one node: the goto target of
    [node] when [node] is to be updated. *)
Definition goto_target_of (gm : GotoManager) (graph : DiGraph.t) (node : Block)
  : result (option Block) :=
  match gotos_in_block gm node with
  | [goto] =>
      succs <- DiGraph.successors graph node ;;
      match find (fun s => addr s =? target_addr goto) succs with
      | None => Ok None
      | Some goto_target =>
          d <- DiGraph.out_degree graph goto_target ;;
          if d =? 1 then Ok (Some goto_target) else Ok None
      end
  | _ => Ok None
  end.

Fixpoint collect (gm : GotoManager) (graph : DiGraph.t) (ns : list Block)
  : result (list (Block * Block)) :=
  match ns with
  | [] => Ok []
  | node :: r =>
      t <- goto_target_of gm graph node ;;
      rest <- collect gm graph r ;;
      Ok (match t with
          | Some goto_target => (node, goto_target) :: rest
          | None => rest
          end)
  end.

(** One iteration of the second loop of [_analyze_core]. *)
Definition duplicate (graph : DiGraph.t) (next_idx : Z)
           (target_node goto_node : Block) : result DiGraph.t :=
  let cp := set_idx goto_node (Some next_idx) in
  g1 <- DiGraph.remove_edge graph target_node goto_node ;;
  let g2 := DiGraph.add_edge g1 target_node cp in
  succs <- DiGraph.successors g2 goto_node ;;
  match succs with
  | [] => Raise IndexError
  | suc :: _ =>
      let g3 := DiGraph.add_edge g2 cp suc in
      if DiGraph.in_degree_is_zero g3 goto_node
      then DiGraph.remove_node g3 goto_node
      else Ok g3
  end.

Fixpoint duplicate_all (graph : DiGraph.t) (next_idx : Z)
         (to_update : list (Block * Block)) : result (DiGraph.t * Z) :=
  match to_update with
  | [] => Ok (graph, next_idx)
  | (target_node, goto_node) :: r =>
      g <- duplicate graph next_idx target_node goto_node ;;
      duplicate_all g (next_idx + 1) r
  end.

(** [_analyze_core]: the edited graph, the advanced counter and the
    returned flag. *)
Definition _analyze_core (gm : GotoManager) (graph : DiGraph.t) (next_idx : Z)
  : result (DiGraph.t * Z * bool) :=
  to_update <- collect gm graph (DiGraph.nodes graph) ;;
  match to_update with
  | [] => Ok (graph, next_idx, false)
  | _ =>
      '(g, i) <- duplicate_all graph next_idx to_update ;;
      Ok (g, i, true)
  end.

(** The loop [for _ in range(self.max_level)] of [_analyze]; the result
    carries [graph_updated]. *)
Fixpoint rounds (level : nat) (st : state) (graph_updated : bool)
  : result (state * bool) :=
  match level with
  | O => Ok (st, graph_updated)
  | S level' =>
      let '(st, (success, graph_has_gotos)) := _structure_graph st in
      if negb success then
        Ok (set_graph_copy st (last_graph st), graph_updated)
      else if negb graph_has_gotos then
        Ok (st, graph_updated)
      else
        match graph_copy st, goto_manager st with
        | Some g, Some gm =>
            let st := set_last_graph st (Some (DiGraph.copy g)) in
            '(g', i, r) <- _analyze_core gm g (node_idx st) ;;
            let st := set_node_idx (set_graph_copy st (Some g')) i in
            if negb r then Ok (st, graph_updated)
            else rounds level' st true
        | _, _ => Ok (st, graph_updated)
        end
  end.

(** The commit at the end of [_analyze]. *)
Definition commit (st : state) (graph_updated : bool) : state :=
  match graph_copy st with
  | Some g =>
      if graph_updated then
        match goto_manager st, initial_gotos st with
        | Some gm, Some init =>
            if negb (length init <? length (gotos gm))%nat
            then set_out_graph st (Some g)
            else st
        | _, _ => st
        end
      else st
  | None => st
  end.

Definition init_state (graph : DiGraph.t) (node_idx_start : Z) : state :=
  mkState (Some (to_ail_supergraph (DiGraph.copy graph))) None None None
          node_idx_start None.

(** [_analyze], from the fields set by [__init__]. *)
Definition _analyze (max_level : nat) (graph : DiGraph.t) (node_idx_start : Z)
  : result state :=
  '(st, graph_updated) <- rounds max_level (init_state graph node_idx_start) false ;;
  Ok (commit st graph_updated).

End Pass.

End CrossJumpReverter.

(* ================================================================== *)
(** ** new_lowered_switch_simplifier.py: class Case *)

(** The values that go into the tuple hashed by [Case.__hash__]. *)
Inductive PyValue : Type :=
| PyType (name : string)
| PyBlock (b : Block)
| PyStr (s : string)
| PyInt (z : Z)
| PyNone.

Module CaseM.

Record Case : Type := mkCase {
  original_node : Block;
  node_type : option string;
  variable_hash : Z;
  expr : option Expr;
  value : CaseValue;
  target : Z;
  next_addr : option Z
}.

Definition option_string_eqb (a b : option string) : bool :=
  match a, b with
  | Some x, Some y => String.eqb x y
  | None, None => true
  | _, _ => false
  end.

Definition option_Z_eqb (a b : option Z) : bool :=
  match a, b with
  | Some x, Some y => x =? y
  | None, None => true
  | _, _ => false
  end.

Definition CaseValue_eqb (a b : CaseValue) : bool :=
  match a, b with
  | IntValue x, IntValue y => x =? y
  | DefaultValue, DefaultValue => true
  | _, _ => false
  end.

(** [Case.__eq__]. *)
Definition Case_eqb (self other : Case) : bool :=
  Block_eqb (original_node self) (original_node other)
  && option_string_eqb (node_type self) (node_type other)
  && (variable_hash self =? variable_hash other)
  && CaseValue_eqb (value self) (value other)
  && (target self =? target other)
  && option_Z_eqb (next_addr self) (next_addr other).

Definition py_of_option_string (o : option string) : PyValue :=
  match o with Some s => PyStr s | None => PyNone end.
Definition py_of_option_Z (o : option Z) : PyValue :=
  match o with Some z => PyInt z | None => PyNone end.
Definition py_of_value (v : CaseValue) : PyValue :=
  match v with IntValue z => PyInt z | DefaultValue => PyStr "default" end.

(** The tuple that [Case.__hash__] hands to [hash]. *)
Definition hash_key (self : Case) : list PyValue :=
  [PyType "Case"; PyBlock (original_node self);
   py_of_option_string (node_type self); PyInt (variable_hash self);
   py_of_value (value self); PyInt (target self);
   py_of_option_Z (next_addr self)].

(** [Case.__hash__], over Python's [hash] of a tuple. *)
Definition Case_hash (py_hash : list PyValue -> Z) (self : Case) : Z :=
  py_hash (hash_key self).

(** [case in cases], with [Case.__eq__]. *)
Definition case_in (c : Case) (l : list Case) : bool := existsb (Case_eqb c) l.

Definition is_default (c : Case) : bool :=
  match value c with DefaultValue => true | IntValue _ => false end.

End CaseM.
Import CaseM.

(* ================================================================== *)
(** ** new_lowered_switch_simplifier.py: class LoweredSwitchSimplifier *)

Module LoweredSwitchSimplifier.

(** The tuple returned by the three classifiers:
    [(variable_hash, op, expr, value, target, next_node_addr)]. *)
Definition Comparison : Type := (Z * string * Expr * Z * Z * Z)%type.

Definition is_Label (s : Stmt) : bool :=
  match s with Label _ => true | _ => false end.

(** Modelled from the spec: utils.first_nonlabel_statement is not among
    the sources; it yields the first statement of the block that is not
    a label. It is given by its position, since the callers compare it
    with [node.statements[-1]] by identity. *)
Fixpoint first_nonlabel_index (stmts : list Stmt) : option nat :=
  match stmts with
  | [] => None
  | s :: r => if is_Label s then option_map S (first_nonlabel_index r)
              else Some O
  end.

(** [first_nonlabel_statement(node) is node.statements[-1]], for a
    block with a non-label statement. *)
Definition first_nonlabel_is_last (stmts : list Stmt) : bool :=
  match first_nonlabel_index stmts with
  | Some i => (S i =? length stmts)%nat
  | None => false
  end.

Section Pass.

(** [StableVarExprHasher(expr).hash]: the walk is that of the base class
    AILBlockWalkerBase and the number is Python's [hash] of a tuple. *)
Variable StableVarExprHasher : Expr -> Z.

(** The tests shared by the three classifiers on the comparison
    statement: a ConditionalJump with constant targets whose condition is
    a BinaryOp with a constant second operand. Yields
    [(op, operand0, value, true_target, false_target)]. *)
Definition comparison_stmt (stmt : Stmt) : option (string * Expr * Z * Z * Z) :=
  match stmt with
  | ConditionalJump (BinaryOp op operand0 (Const value _))
                    (Const true_target _) (Const false_target _) =>
      Some (op, operand0, value, true_target, false_target)
  | _ => None
  end.

Definition eq_comparison (stmt : Stmt) : option Comparison :=
  match comparison_stmt stmt with
  | Some (op, operand0, value, true_target, false_target) =>
      let variable_hash := StableVarExprHasher operand0 in
      if String.eqb op "CmpEQ" then
        Some (variable_hash, "eq"%string, operand0, value, true_target, false_target)
      else if String.eqb op "CmpNE" then
        Some (variable_hash, "eq"%string, operand0, value, false_target, true_target)
      else None
  | None => None
  end.

(** [_find_switch_variable_comparison_type_a]. *)
Definition _find_switch_variable_comparison_type_a (node : Block)
  : option Comparison :=
  match rev (statements node) with
  | [] => None
  | stmt :: _ =>
      if negb (first_nonlabel_is_last (statements node))
      then eq_comparison stmt
      else None
  end.

(** [_find_switch_variable_comparison_type_b]. *)
Definition _find_switch_variable_comparison_type_b (node : Block)
  : option Comparison :=
  match rev (statements node) with
  | [] => None
  | stmt :: _ =>
      if first_nonlabel_is_last (statements node)
      then eq_comparison stmt
      else None
  end.

(** [_find_switch_variable_comparison_type_c]. *)
Definition _find_switch_variable_comparison_type_c (node : Block)
  : option Comparison :=
  match rev (statements node) with
  | [] => None
  | stmt :: _ =>
      if first_nonlabel_is_last (statements node) then
        match comparison_stmt stmt with
        | Some (op, operand0, value, true_target, false_target) =>
            let variable_hash := StableVarExprHasher operand0 in
            if true_target =? false_target then None
            else if String.eqb op "CmpGT" then
              Some (variable_hash, "gt"%string, operand0, value,
                    true_target, false_target)
            else if String.eqb op "CmpGE" then
              Some (variable_hash, "gt"%string, operand0, value + 1,
                    true_target, false_target)
            else if String.eqb op "CmpLT" then
              Some (variable_hash, "gt"%string, operand0, value - 1,
                    false_target, true_target)
            else if String.eqb op "CmpLE" then
              Some (variable_hash, "gt"%string, operand0, value,
                    false_target, true_target)
            else None
        | None => None
        end
      else None
  end.

(** *** The recognizer: [_find_cascading_switch_variable_comparisons] *)

(** [GraphUtils.quasi_topological_sort_nodes]. *)
Variable quasi_topological_sort_nodes : DiGraph.t -> list Block.

(** [OptimizationPass._get_blocks(addr)]: the blocks the pass knows at an
    address, from its table [_blocks_by_addr]. *)
Variable _get_blocks : Z -> list Block.

(** An OrderedDict keyed by blocks. *)
Fixpoint dict_set {V : Type} (d : list (Block * V)) (k : Block) (v : V)
  : list (Block * V) :=
  match d with
  | [] => [(k, v)]
  | (k', v') :: r =>
      if Block_eqb k' k then (k', v) :: r else (k', v') :: dict_set r k v
  end.

Fixpoint dict_get {V : Type} (d : list (Block * V)) (k : Block) : option V :=
  match d with
  | [] => None
  | (k', v') :: r => if Block_eqb k' k then Some v' else dict_get r k
  end.

Definition dict_has {V : Type} (d : list (Block * V)) (k : Block) : bool :=
  match dict_get d k with Some _ => true | None => false end.

(** A dict keyed by integers (addresses, hashes). *)
Fixpoint zdict_set {V : Type} (d : list (Z * V)) (k : Z) (v : V)
  : list (Z * V) :=
  match d with
  | [] => [(k, v)]
  | (k', v') :: r =>
      if k' =? k then (k', v) :: r else (k', v') :: zdict_set r k v
  end.

Fixpoint zdict_get {V : Type} (d : list (Z * V)) (k : Z) : option V :=
  match d with
  | [] => None
  | (k', v') :: r => if k' =? k then Some v' else zdict_get r k
  end.

Definition zdict_has {V : Type} (d : list (Z * V)) (k : Z) : bool :=
  match zdict_get d k with Some _ => true | None => false end.

(** [used_nodes.add(comp)]. *)
Definition set_add (s : list Block) (b : Block) : list Block :=
  if mem b s then s else s ++ [b].

(** The type tag and the tuple stored for a classified node. *)
Definition classify (node : Block) : option (string * Comparison) :=
  match _find_switch_variable_comparison_type_a node with
  | Some r => Some ("a"%string, r)
  | None =>
      match _find_switch_variable_comparison_type_b node with
      | Some r => Some ("b"%string, r)
      | None =>
          match _find_switch_variable_comparison_type_c node with
          | Some r => Some ("c"%string, r)
          | None => None
          end
      end
  end.

Definition VarComps : Type := list (Block * (string * Comparison)).

Definition build_variable_comparisons (sorted_nodes : list Block) : VarComps :=
  fold_left (fun d node =>
               match classify node with
               | Some r => dict_set d node r
               | None => d
               end) sorted_nodes [].

(** The local variables of one [while stack:] walk. *)
Record walk : Type := mkWalk {
  stack : list (Block * Z * Z);
  cases : list Case;
  extra_cmp_nodes : list Block;
  default_case_candidates : list (Z * Case);
  last_comp : option Block;
  used_nodes : list Block
}.

Inductive ctl : Type :=
| Continue (w : walk)
| Break (w : walk).

Definition push (w : walk) (e : Block * Z * Z) : walk :=
  mkWalk (stack w ++ [e]) (cases w) (extra_cmp_nodes w)
         (default_case_candidates w) (last_comp w) (used_nodes w).
Definition add_case (w : walk) (c : Case) : walk :=
  mkWalk (stack w) (cases w ++ [c]) (extra_cmp_nodes w)
         (default_case_candidates w) (last_comp w) (used_nodes w).
Definition add_extra (w : walk) (b : Block) : walk :=
  mkWalk (stack w) (cases w) (extra_cmp_nodes w ++ [b])
         (default_case_candidates w) (last_comp w) (used_nodes w).
Definition add_candidate (w : walk) (a : Z) (c : Case) : walk :=
  mkWalk (stack w) (cases w) (extra_cmp_nodes w)
         (zdict_set (default_case_candidates w) a c) (last_comp w)
         (used_nodes w).
Definition set_last_comp (w : walk) (b : Block) : walk :=
  mkWalk (stack w) (cases w) (extra_cmp_nodes w)
         (default_case_candidates w) (Some b) (used_nodes w).
Definition use_node (w : walk) (b : Block) : walk :=
  mkWalk (stack w) (cases w) (extra_cmp_nodes w)
         (default_case_candidates w) (last_comp w) (set_add (used_nodes w) b).

(** [cases[-1].variable_hash if cases else None]. *)
Definition last_varhash_of (cs : list Case) : option Z :=
  match rev cs with
  | c :: _ => Some (variable_hash c)
  | [] => None
  end.

(** [last_varhash is None or last_varhash == variable_hash]. *)
Definition same_variable (last_varhash : option Z) (variable_hash : Z) : bool :=
  match last_varhash with
  | None => true
  | Some h => h =? variable_hash
  end.

(** [[succ for succ in self._graph.successors(comp) if succ is not comp]]. *)
Definition other_successors (graph : DiGraph.t) (comp : Block)
  : result (list Block) :=
  succs <- DiGraph.successors graph comp ;;
  Ok (filter (fun succ => negb (Block_eqb succ comp)) succs).

Definition zmem (a : Z) (l : list Z) : bool := existsb (Z.eqb a) l.

(** The part of the "eq" branch after the case was appended. Python
    iterates the set [succ_addrs] in an order of its own; the model takes
    the first address other than [target] in successor order. *)
Definition eq_tail (vc : VarComps) (graph : DiGraph.t) (head comp : Block)
           (min_ max_ : Z) (variable_hash : Z) (expr : Expr) (target : Z)
           (w : walk) : result ctl :=
  d <- (if Block_eqb comp head then Ok 0
        else DiGraph.in_degree_item graph comp) ;;
  if d >? 1 then Ok (Break w)
  else
    successors <- other_successors graph comp ;;
    let succ_addrs := map addr successors in
    if zmem target succ_addrs then
      match find (fun a => negb (a =? target)) succ_addrs with
      | None => Ok (Break w)
      | Some next_comp_addr =>
          match _get_blocks next_comp_addr with
          | [] => Raise AssertionError
          | [next_comp] =>
              if dict_has vc next_comp then
                Ok (Continue
                      (use_node (push (set_last_comp w comp)
                                      (next_comp, min_, max_)) comp))
              else if zdict_has (default_case_candidates w) next_comp_addr
                   then Ok (Continue w)
              else
                Ok (Continue
                      (use_node
                         (add_candidate w next_comp_addr
                            (mkCase comp None variable_hash (Some expr)
                                    DefaultValue next_comp_addr None))
                         comp))
          | first :: _ =>
              if dict_has vc first then Ok (Break w)
              else
                Ok (Break
                      (use_node
                         (add_case w
                            (mkCase comp None variable_hash (Some expr)
                                    DefaultValue next_comp_addr None))
                         comp))
          end
      end
    else Ok (Continue w).

(** The body of the [while stack:] loop, after [stack.pop(0)]. *)
Definition walk_step (vc : VarComps) (graph : DiGraph.t) (head : Block)
           (w : walk) (comp : Block) (min_ max_ : Z) : result ctl :=
  match dict_get vc comp with
  | None => Raise KeyError
  | Some (comp_type, (variable_hash, op, expr, value, target, next_addr)) =>
      let last_varhash := last_varhash_of (cases w) in
      if String.eqb op "eq" then
        if same_variable last_varhash variable_hash then
          if target =? addr comp then Ok (Break w)
          else
            eq_tail vc graph head comp min_ max_ variable_hash expr target
              (use_node
                 (add_case w
                    (mkCase comp (Some comp_type) variable_hash (Some expr)
                            (IntValue value) target (Some next_addr)))
                 comp)
        else
          match last_comp w, last_varhash with
          | Some lc, Some lh =>
              if zdict_has (default_case_candidates w) (addr comp)
              then Ok (Break w)
              else Ok (Break
                         (add_candidate w (addr comp)
                            (mkCase lc None lh None DefaultValue
                                    (addr comp) None)))
          | _, _ => Ok (Break w)
          end
      else if String.eqb op "gt" then
        let gt_addr := target in
        let le_addr := next_addr in
        if same_variable last_varhash variable_hash then
          successors <- other_successors graph comp ;;
          let succ_addrs := map addr successors in
          if forallb (fun a => (a =? gt_addr) || (a =? le_addr)) succ_addrs
             && zmem gt_addr succ_addrs && zmem le_addr succ_addrs
          then
            match find (fun s => addr s =? gt_addr) successors,
                  find (fun s => addr s =? le_addr) successors with
            | Some gt_comp, Some le_comp =>
                if dict_has vc gt_comp && dict_has vc le_comp then
                  Ok (Continue
                        (use_node
                           (add_extra
                              (push (push w (gt_comp, value, max_))
                                    (le_comp, min_, value - 1))
                              comp)
                           comp))
                else Ok (Break w)
            | _, _ => Raise StopIteration
            end
          else Ok (Break w)
        else Ok (Break w)
      else Ok (Continue w)
  end.

(** [while stack: ...]: the walk may go on for ever on a cyclic ladder,
    so the loop of the model takes a step budget. *)
Fixpoint walk_loop (fuel : nat) (vc : VarComps) (graph : DiGraph.t)
         (head : Block) (w : walk) : result walk :=
  match stack w with
  | [] => Ok w
  | (comp, min_, max_) :: rest =>
      match fuel with
      | O => Raise OutOfFuel
      | S fuel' =>
          let w0 := mkWalk rest (cases w) (extra_cmp_nodes w)
                           (default_case_candidates w) (last_comp w)
                           (used_nodes w) in
          c <- walk_step vc graph head w0 comp min_ max_ ;;
          match c with
          | Continue w' => walk_loop fuel' vc graph head w'
          | Break w' => Ok w'
          end
      end
  end.

Definition init_walk (head : Block) (used : list Block) : walk :=
  mkWalk [(head, 0, 18446744073709551615)] [] [] [] None used.

Definition Chain : Type := (list Case * list Block)%type.

(** [cases_issubset]. *)
Definition cases_issubset (cases_0 cases_1 : list Case) : bool :=
  if (length cases_1 <? length cases_0)%nat then false
  else forallb (fun case => case_in case cases_1) cases_0.

(** [if cases and len(default_case_candidates) <= 1:] and the append of
    the candidate. *)
Definition accept_chain (w : walk) : option Chain :=
  match cases w with
  | [] => None
  | _ =>
      match default_case_candidates w with
      | [] => Some (cases w, extra_cmp_nodes w)
      | [(_, c)] => Some (cases w ++ [c], extra_cmp_nodes w)
      | _ => None
      end
  end.

(** The [for ... else] loop over [varhash_to_caselists[v]]. *)
Fixpoint merge_chain (existing : list Chain) (cases : list Case)
         (extra_cmp_nodes : list Block) : list Chain :=
  match existing with
  | [] => [(cases, extra_cmp_nodes)]
  | (existing_cases, existing_redundant_nodes) :: r =>
      if cases_issubset existing_cases cases then
        (cases, dedup (existing_redundant_nodes ++ extra_cmp_nodes)) :: r
      else if cases_issubset cases existing_cases then
        (existing_cases, existing_redundant_nodes) :: r
      else
        (existing_cases, existing_redundant_nodes)
          :: merge_chain r cases extra_cmp_nodes
  end.

Definition CaseLists : Type := list (Z * list Chain).

Definition caselists_of (d : CaseLists) (v : Z) : list Chain :=
  match zdict_get d v with Some l => l | None => [] end.

(** One iteration of [for head in variable_comparisons:]. *)
Definition process_head (fuel : nat) (vc : VarComps) (graph : DiGraph.t)
           (acc : CaseLists * list Block) (head : Block)
  : result (CaseLists * list Block) :=
  let '(d, used) := acc in
  if mem head used then Ok acc
  else
    w <- walk_loop fuel vc graph head (init_walk head used) ;;
    match accept_chain w with
    | Some (cs, extra) =>
        match last_varhash_of cs with
        | Some v =>
            Ok (zdict_set d v (merge_chain (caselists_of d v) cs extra),
                used_nodes w)
        | None => Ok (d, used_nodes w)
        end
    | None => Ok (d, used_nodes w)
    end.

Fixpoint heads_loop (fuel : nat) (vc : VarComps) (graph : DiGraph.t)
         (acc : CaseLists * list Block) (heads : list Block)
  : result (CaseLists * list Block) :=
  match heads with
  | [] => Ok acc
  | head :: r =>
      acc' <- process_head fuel vc graph acc head ;;
      heads_loop fuel vc graph acc' r
  end.

Definition nondefault_count (cs : list Case) : nat :=
  length (filter (fun c => negb (is_default c)) cs).

Definition plain_stmt (s : Stmt) : bool :=
  match s with
  | ConditionalJump _ _ _ | Label _ | Assignment _ _ => true
  | _ => false
  end.

(** filter: type-a nodes after the first case node can only have
    assignments. *)
Definition type_a_filter (cs : list Case) : bool :=
  forallb (fun case =>
             if negb (is_default case)
                && option_string_eqb (node_type case) (Some "a"%string)
             then forallb plain_stmt (statements (original_node case))
             else true) (tl cs).

(** filter: each case is only reachable from a case node. *)
Fixpoint reachable_filter (graph : DiGraph.t) (all_case_nodes : list Block)
         (cs : list Case) : result bool :=
  match cs with
  | [] => Ok true
  | case :: r =>
      succs <- DiGraph.successors graph (original_node case) ;;
      match filter (fun succ => addr succ =? target case) succs with
      | [target_node] =>
          preds <- DiGraph.predecessors graph target_node ;;
          let nonself_preds :=
            filter (fun pred => addr pred =? target case) preds in
          if forallb (fun p => mem p all_case_nodes) nonself_preds
          then reachable_filter graph all_case_nodes r
          else Ok false
      | _ => Ok false
      end
  end.

(** Whether the final filters keep a chain. *)
Definition keep_chain (graph : DiGraph.t) (ch : Chain) : result bool :=
  let cs := fst ch in
  if (nondefault_count cs <? 2)%nat then Ok false
  else
    ok <- reachable_filter graph (map original_node cs) cs ;;
    Ok (type_a_filter cs && ok).

Fixpoint filter_chains (graph : DiGraph.t) (l : list Chain)
  : result (list Chain) :=
  match l with
  | [] => Ok []
  | ch :: r =>
      k <- keep_chain graph ch ;;
      r' <- filter_chains graph r ;;
      Ok (if k then ch :: r' else r')
  end.

Fixpoint final_filter (graph : DiGraph.t) (d : CaseLists) : result CaseLists :=
  match d with
  | [] => Ok []
  | (v, caselists) :: r =>
      l <- filter_chains graph caselists ;;
      r' <- final_filter graph r ;;
      Ok ((v, l) :: r')
  end.

(** [_find_cascading_switch_variable_comparisons]. *)
Definition _find_cascading_switch_variable_comparisons
           (fuel : nat) (graph : DiGraph.t) : result CaseLists :=
  let sorted_nodes := quasi_topological_sort_nodes graph in
  let variable_comparisons := build_variable_comparisons sorted_nodes in
  '(d, _) <- heads_loop fuel variable_comparisons graph ([], [])
                        (map fst variable_comparisons) ;;
  final_filter graph d.

(** *** The rewriter: [_analyze] *)

(** The structuring run of [_structure_and_find_gotos]: [None] when the
    structurer's result has no nodes, otherwise the goto manager. *)
Variable structure : DiGraph.t -> option GotoManager.

(** [self.project.arch.bits]. *)
Variable arch_bits : Z.

(** [_structure_and_find_gotos]: the gotos, or [None]. *)
Definition _structure_and_find_gotos (graph : DiGraph.t) : option (list Goto) :=
  match structure graph with
  | Some gm => Some (gotos gm)
  | None => None
  end.

(** Modelled from the spec: OptimizationPass._update_block is not among
    the sources. The head Block is replaced by its copy that carries the
    placeholder, on the output graph: the old block leaves the graph, the
    new one enters it and takes over the incoming and the outgoing edges
    (an edge of the old block to itself becomes one of the new block to
    itself). Nothing happens when the old block is not in the graph. *)
Definition _update_block (g : DiGraph.t) (old_block new_block : Block)
  : result DiGraph.t :=
  if DiGraph.has_node g old_block then
    let in_edges := DiGraph.pred_list g old_block in
    out_edges <- DiGraph.successors g old_block ;;
    g1 <- DiGraph.remove_node g old_block ;;
    let g2 := DiGraph.add_node g1 new_block in
    let sub := fun b => if Block_eqb b old_block then new_block else b in
    let g3 := fold_left (fun g src => DiGraph.add_edge g (sub src) new_block)
                        in_edges g2 in
    Ok (fold_left (fun g dst => DiGraph.add_edge g new_block (sub dst))
                  out_edges g3)
  else Ok g.

(** [{nn.addr: nn for nn in graph_copy}[a]]: the last node at the
    address wins. *)
Definition existing_node_by_addr (g : DiGraph.t) (a : Z) : result Block :=
  match find (fun nn => addr nn =? a) (rev (DiGraph.nodes g)) with
  | Some nn => Ok nn
  | None => Raise KeyError
  end.

Definition label_or_condjump (s : Stmt) : bool :=
  match s with Label _ | ConditionalJump _ _ _ => true | _ => false end.

Definition label_or_assignment (s : Stmt) : bool :=
  match s with Label _ | Assignment _ _ => true | _ => false end.

Definition CaseAddr : Type := (Block * CaseValue * Z * option Z)%type.

(** The loop [for idx, case in enumerate(cases)]: the entries of
    [case_addrs] and the delayed edges [(src, dst)], [src = None]
    standing for the new head. *)
Fixpoint build_case_addrs (g : DiGraph.t) (first : bool) (cs : list Case)
  : result (list CaseAddr * list (option Block * Block)) :=
  match cs with
  | [] => Ok ([], [])
  | case :: r =>
      if first || forallb label_or_condjump (statements (original_node case))
      then
        '(cas, des) <- build_case_addrs g false r ;;
        Ok ((original_node case, value case, target case, next_addr case)
              :: cas, des)
      else
        let stmts :=
          filter label_or_assignment (statements (original_node case))
          ++ [Jump (Const (target case) arch_bits)] in
        let case_node_copy := Block_copy (original_node case) (Some stmts) in
        target_node <- existing_node_by_addr g (target case) ;;
        '(cas, des) <- build_case_addrs g false r ;;
        Ok ((case_node_copy, value case, addr case_node_copy, next_addr case)
              :: cas,
            (None, case_node_copy) :: (Some case_node_copy, target_node)
              :: des)
  end.

(** [new_head.statements[-1] = switch_stmt]. *)
Definition replace_last (stmts : list Stmt) (s : Stmt) : result (list Stmt) :=
  match rev stmts with
  | [] => Raise IndexError
  | _ :: r => Ok (rev r ++ [s])
  end.

(** [node_to_heads]: a defaultdict of sets of heads, keyed by blocks. *)
Definition NodeToHeads : Type := list (Block * list Block).

Definition heads_add (d : NodeToHeads) (succ new_head : Block) : NodeToHeads :=
  match dict_get d succ with
  | Some heads => dict_set d succ (set_add heads new_head)
  | None => dict_set d succ [new_head]
  end.

(** [for succ in successors: if succ not in original_nodes: ...]. *)
Definition link_successors (original_nodes : list Block) (new_head : Block)
           (acc : DiGraph.t * NodeToHeads) (successors : list Block)
  : DiGraph.t * NodeToHeads :=
  fold_left (fun a succ =>
               if mem succ original_nodes then a
               else (DiGraph.add_edge (fst a) new_head succ,
                     heads_add (snd a) succ new_head))
            successors acc.

(** [for onode in original_nodes: ...; graph_copy.remove_node(onode)]. *)
Fixpoint absorb_nodes (original_nodes : list Block) (new_head : Block)
         (g : DiGraph.t) (n2h : NodeToHeads) (todo : list Block)
  : result (DiGraph.t * NodeToHeads) :=
  match todo with
  | [] => Ok (g, n2h)
  | onode :: r =>
      successors <- DiGraph.successors g onode ;;
      let '(g1, n2h1) :=
        link_successors original_nodes new_head (g, n2h) successors in
      g2 <- DiGraph.remove_node g1 onode ;;
      absorb_nodes original_nodes new_head g2 n2h1 r
  end.

Fixpoint remove_nodes (g : DiGraph.t) (ns : list Block) : result DiGraph.t :=
  match ns with
  | [] => Ok g
  | n :: r => g' <- DiGraph.remove_node g n ;; remove_nodes g' r
  end.

Definition apply_delayed (new_head : Block) (g : DiGraph.t)
           (des : list (option Block * Block)) : DiGraph.t :=
  fold_left (fun g e =>
               match fst e with
               | None => DiGraph.add_edge g new_head (snd e)
               | Some src => DiGraph.add_edge g src (snd e)
               end) des g.

(** The body of [for cases, redundant_nodes in caselists:]. [None] is
    the early [self.out_graph = None; return]. *)
Definition apply_chain (g : DiGraph.t) (n2h : NodeToHeads) (ch : Chain)
  : result (option (DiGraph.t * NodeToHeads)) :=
  let '(cs, redundant_nodes) := ch in
  match map original_node (filter (fun c => negb (is_default c)) cs) with
  | [] => Raise IndexError
  | original_head :: original_nodes =>
      '(case_addrs, delayed_edges) <- build_case_addrs g true cs ;;
      let expr := match cs with c :: _ => expr c | [] => None end in
      let switch_stmt := IncompleteSwitchCaseHeadStatement expr case_addrs in
      stmts <- replace_last (statements original_head) switch_stmt ;;
      let new_head := Block_copy original_head (Some stmts) in
      g1 <- _update_block g original_head new_head ;;
      if negb (forallb (DiGraph.has_node g1) original_nodes) then Ok None
      else
        '(g2, n2h2) <- absorb_nodes original_nodes new_head g1 n2h
                                    original_nodes ;;
        g3 <- remove_nodes g2 redundant_nodes ;;
        Ok (Some (apply_delayed new_head g3 delayed_edges, n2h2))
  end.

Fixpoint apply_chains (g : DiGraph.t) (n2h : NodeToHeads) (l : list Chain)
  : result (option (DiGraph.t * NodeToHeads)) :=
  match l with
  | [] => Ok (Some (g, n2h))
  | ch :: r =>
      o <- apply_chain g n2h ch ;;
      match o with
      | Some (g', n2h') => apply_chains g' n2h' r
      | None => Ok None
      end
  end.

(** [for head in heads: ...] of the shared-node loop. *)
Fixpoint copy_for_heads (g : DiGraph.t) (succ_node : Block)
         (node_successors : list Block) (next_id : Z) (heads : list Block)
  : DiGraph.t :=
  match heads with
  | [] => g
  | head :: r =>
      let node_copy := set_idx succ_node (Some next_id) in
      let g1 := DiGraph.add_edge g head node_copy in
      let g2 := fold_left
                  (fun g succ =>
                     if Block_eqb succ succ_node
                     then DiGraph.add_edge g node_copy node_copy
                     else DiGraph.add_edge g node_copy succ)
                  node_successors g1 in
      copy_for_heads g2 succ_node node_successors (next_id + 1) r
  end.

(** One iteration of [for succ_node, heads in node_to_heads.items():]. *)
Definition split_shared (g : DiGraph.t) (succ_node : Block)
           (heads : list Block) : result DiGraph.t :=
  if (1 <? length heads)%nat then
    node_successors <- DiGraph.successors g succ_node ;;
    let next_id := match idx succ_node with
                   | None => 0
                   | Some i => i + 1
                   end in
    g1 <- DiGraph.remove_node g succ_node ;;
    Ok (copy_for_heads g1 succ_node node_successors next_id heads)
  else Ok g.

Fixpoint split_all_shared (g : DiGraph.t) (items : NodeToHeads)
  : result DiGraph.t :=
  match items with
  | [] => Ok g
  | (succ_node, heads) :: r =>
      g' <- split_shared g succ_node heads ;;
      split_all_shared g' r
  end.

(** The rewrite of [_analyze] between the recognizer and the final
    structuring run: every chain applied, then the shared nodes split. *)
Definition rewrite (graph : DiGraph.t) (variablehash_to_cases : CaseLists)
  : result (option DiGraph.t) :=
  o <- apply_chains (DiGraph.copy graph) []
                    (flat_map snd variablehash_to_cases) ;;
  match o with
  | None => Ok None
  | Some (g, node_to_heads) =>
      g' <- split_all_shared g node_to_heads ;;
      Ok (Some g')
  end.

(** The last lines of [_analyze]: the structuring run on the rewritten
    graph decides whether it stays the output. *)
Definition validate (initial_gotos : list Goto) (out_graph : DiGraph.t)
  : option DiGraph.t :=
  match _structure_and_find_gotos out_graph with
  | None => None
  | Some new_gotos =>
      if (length initial_gotos <? length new_gotos)%nat then None
      else Some out_graph
  end.

(** [_analyze]: the value of [self.out_graph] when it returns. *)
Definition _analyze (fuel : nat) (graph : DiGraph.t)
  : result (option DiGraph.t) :=
  match _structure_and_find_gotos (DiGraph.copy graph) with
  | None => Ok None
  | Some [] => Ok None
  | Some initial_gotos =>
      variablehash_to_cases <-
        _find_cascading_switch_variable_comparisons fuel graph ;;
      match variablehash_to_cases with
      | [] => Ok None
      | _ =>
          o <- rewrite graph variablehash_to_cases ;;
          match o with
          | None => Ok None
          | Some out_graph => Ok (validate initial_gotos out_graph)
          end
      end
  end.

(** *** [restore_graph] *)

(** [next(iter(nn for nn in full_graph if nn.addr == target))]. *)
Definition node_at (g : DiGraph.t) (a : Z) : result Block :=
  match find (fun nn => addr nn =? a) (DiGraph.nodes g) with
  | Some nn => Ok nn
  | None => Raise StopIteration
  end.

(** [if g.has_edge(u, v): g.remove_edge(u, v)]. *)
Definition discard_edge (g : DiGraph.t) (u v : Block) : DiGraph.t :=
  if DiGraph.has_edge g u v then map (DiGraph.del_succ u v) g else g.

(** [onode.copy(statements=[onode.statements[-1]])] when the first
    non-label statement of [onode] is not its last statement. *)
Definition trimmed (onode : Block) : result Block :=
  match rev (statements onode) with
  | [] => Raise IndexError
  | last_stmt :: _ =>
      if first_nonlabel_is_last (statements onode) then Ok onode
      else Ok (Block_copy onode (Some [last_stmt]))
  end.

(** The loop [while next_node_addr is not None and next_node_addr in
    ca_others:]; it yields [last_node] and the two graphs. The chain of
    fallthrough addresses may be cyclic, hence the step budget. *)
Fixpoint restore_loop (fuel : nat) (ca_others : list (Z * CaseAddr))
         (node last_node : Block) (next_node_addr : option Z)
         (graph full_graph : DiGraph.t)
  : result (Block * DiGraph.t * DiGraph.t) :=
  match next_node_addr with
  | None => Ok (last_node, graph, full_graph)
  | Some a =>
      match zdict_get ca_others a with
      | None => Ok (last_node, graph, full_graph)
      | Some (onode, _, target, next_node_addr') =>
          match fuel with
          | O => Raise OutOfFuel
          | S fuel' =>
              onode <- trimmed onode ;;
              let graph := DiGraph.add_edge graph last_node onode in
              let full_graph := DiGraph.add_edge full_graph last_node onode in
              target_node <- node_at full_graph target ;;
              let graph := DiGraph.add_edge graph onode target_node in
              let full_graph :=
                DiGraph.add_edge full_graph onode target_node in
              let graph := discard_edge graph node target_node in
              let full_graph := discard_edge full_graph node target_node in
              restore_loop fuel' ca_others node onode next_node_addr'
                           graph full_graph
          end
      end
  end.

(** Modelled from the spec: utils.remove_last_statement is not among the
    sources; it deletes the last statement of the block, in place. *)
Definition remove_last_statement (node : Block) : Block :=
  mkBlock (addr node) (idx node) (removelast (statements node)).

(** The block object [node] sits in both graphs, so the in-place edit of
    its statements shows in both. *)
Definition rename (g : DiGraph.t) (old_block new_block : Block) : DiGraph.t :=
  let sub := fun b => if Block_eqb b old_block then new_block else b in
  map (fun kv => (sub (fst kv), map sub (snd kv))) g.

(** [restore_graph], for a [node] that is an AIL block: the edited head
    and the two graphs. *)
Definition restore_graph (fuel : nat) (node : Block)
           (case_addrs : list CaseAddr) (graph full_graph : DiGraph.t)
  : result (Block * DiGraph.t * DiGraph.t) :=
  let is_default_ca := fun ca : CaseAddr =>
    match ca with (_, DefaultValue, _, _) => true | _ => false end in
  let ca_default := filter is_default_ca case_addrs in
  let ca_others :=
    fold_left (fun d ca => zdict_set d (addr (fst (fst (fst ca)))) ca)
              (filter (fun ca => negb (is_default_ca ca)) case_addrs) [] in
  '(last_node, graph, full_graph) <-
     restore_loop fuel ca_others node node (Some (addr node))
                  graph full_graph ;;
  '(graph, full_graph) <-
     match ca_default with
     | [] => Ok (graph, full_graph)
     | (_, _, target, _) :: _ =>
         default_target <- node_at full_graph target ;;
         let graph := DiGraph.add_edge graph last_node default_target in
         let full_graph :=
           DiGraph.add_edge full_graph last_node default_target in
         Ok (discard_edge graph node default_target,
             discard_edge full_graph node default_target)
     end ;;
  let node' := remove_last_statement node in
  Ok (node', rename graph node node', rename full_graph node node').

End Pass.

End LoweredSwitchSimplifier.

(* ================================================================== *)
(** ** Semantics of a comparison block

    What a conditional jump on [operand0 op constant] does for an
    integer value [x] of [operand0], and what the normalized tuple of a
    "gt" node says it does. *)

Module Semantics.

(** The AIL comparison operators, on integers. *)
Definition cmp_holds (op : string) (x c : Z) : option bool :=
  if String.eqb op "CmpEQ" then Some (x =? c)
  else if String.eqb op "CmpNE" then Some (negb (x =? c))
  else if String.eqb op "CmpGT" then Some (x >? c)
  else if String.eqb op "CmpGE" then Some (x >=? c)
  else if String.eqb op "CmpLT" then Some (x <? c)
  else if String.eqb op "CmpLE" then Some (x <=? c)
  else None.

(** The address the conditional jump goes to when [operand0] is [x]. *)
Definition branch_taken (stmt : Stmt) (x : Z) : option Z :=
  match LoweredSwitchSimplifier.comparison_stmt stmt with
  | Some (op, _, c, true_target, false_target) =>
      match cmp_holds op x c with
      | Some b => Some (if b then true_target else false_target)
      | None => None
      end
  | None => None
  end.

(** The reading of a "gt" tuple: the greater target exactly when
    [x > value], the lesser-or-equal target otherwise. *)
Definition gt_partition (r : LoweredSwitchSimplifier.Comparison) (x : Z) : Z :=
  let '(_, _, _, value, gt_node_addr, le_node_addr) := r in
  if x >? value then gt_node_addr else le_node_addr.

End Semantics.

(* ================================================================== *)
(** ** Invariants of the recognizer's walk *)

Module Invariants.
Import LoweredSwitchSimplifier.

(** While a walk goes on: no case is a default case, and every default
    candidate is a default case registered under its own target, an
    address with exactly one block. *)
Definition walk_inv (_get_blocks : Z -> list Block) (w : walk) : Prop :=
  (forall c, In c (cases w) -> is_default c = false) /\
  (forall a c, In (a, c) (default_case_candidates w) ->
     value c = DefaultValue /\ target c = a /\
     length (_get_blocks a) = 1%nat).

(** When a walk has left: every default candidate is a default case
    registered under its own target, and no case of the walk compares
    equal to it. *)
Definition walk_post (w : walk) : Prop :=
  forall a c, In (a, c) (default_case_candidates w) ->
     value c = DefaultValue /\ target c = a /\
     forall c', In c' (cases w) -> Case_eqb c c' = false.


(** The case list of a chain that one walk assembled and that passed
    [if cases and len(default_case_candidates) <= 1:]. *)
Definition assembled (_get_blocks : Z -> list Block) (fuel : nat)
           (vc : VarComps) (graph : DiGraph.t) (cs : list Case) : Prop :=
  exists head used w,
    walk_loop _get_blocks fuel vc graph head (init_walk head used) = Ok w /\
    cases w <> [] /\
    (length (default_case_candidates w) <= 1)%nat /\
    cs = cases w ++ map snd (default_case_candidates w).

End Invariants.

(* ================================================================== *)
(** ** The copies made for a shared block *)

Module SplitDefs.



End SplitDefs.

(* ================================================================== *)
(** ** Reachability in a graph *)

Module Reach.

Definition add_all (seen new : list Block) : list Block :=
  fold_left (fun acc b => if mem b acc then acc else acc ++ [b]) new seen.

(** One round: the successors of every block seen so far. *)
Definition grow (g : DiGraph.t) (seen : list Block) : list Block :=
  fold_left (fun acc b =>
               match DiGraph.adj g b with
               | Some vs => add_all acc vs
               | None => acc
               end) seen seen.

Fixpoint reach (rounds : nat) (g : DiGraph.t) (seen : list Block) : list Block :=
  match rounds with
  | O => seen
  | S r => reach r g (grow g seen)
  end.

(** The blocks reachable from [n]: as many rounds as the graph has
    nodes. *)
Definition reachable (g : DiGraph.t) (n : Block) : list Block :=
  reach (length g) g [n].

(** Whether a block at address [a] is reachable from [n]. *)
Definition reachable_addr (g : DiGraph.t) (n : Block) (a : Z) : bool :=
  existsb (fun b => addr b =? a) (reachable g n).

End Reach.

(* ================================================================== *)
(** ** Notions used to state properties of the classifiers and of a
       duplication round *)

Module ShapeDefs.

(** The number of statements of a block that are not labels. *)
Definition nonlabel_count (stmts : list Stmt) : nat :=
  length (filter (fun s => negb (LoweredSwitchSimplifier.is_Label s)) stmts).

End ShapeDefs.

Module GraphDefs.

(** A block occurs in a graph when it is a node or is listed as a
    successor. *)
Definition occurs (g : DiGraph.t) (b : Block) : Prop :=
  In b (DiGraph.nodes g) \/ exists k vs, In (k, vs) g /\ In b vs.

(** Two blocks with the same code: same address, same statements. *)
Definition same_code (a b : Block) : Prop :=
  addr a = addr b /\ statements a = statements b.

End GraphDefs.

(* ================================================================== *)
(** ** What a walk of the recognizer keeps true *)

Module ChainDefs.
Import LoweredSwitchSimplifier.

(** A case that mirrors the tuple stored for its block: the block is a
    classified "eq" comparison, and the case carries the tuple's hash,
    expression, value, target and next address, and the block's type
    tag. *)
Definition from_comparison (vc : VarComps) (c : Case) : Prop :=
  exists comp_type e v next,
    dict_get vc (original_node c)
    = Some (comp_type, (variable_hash c, "eq"%string, e, v, target c, next)) /\
    node_type c = Some comp_type /\ expr c = Some e /\
    value c = IntValue v /\ next_addr c = Some next.

(** What a walk keeps true of its case list and its default-case
    candidates: all of them carry the expression hash of the last case,
    the first case is not a default case, and every case that is not a
    default case mirrors the comparison of its block. *)
Definition walk_ok (vc : VarComps) (w : walk) : Prop :=
  (forall c, In c (cases w) \/ In c (map snd (default_case_candidates w)) ->
             last_varhash_of (cases w) = Some (variable_hash c)) /\
  (match cases w with [] => True | c :: _ => is_default c = false end) /\
  (forall c, In c (cases w) -> is_default c = false -> from_comparison vc c) /\
  (forall c, In c (map snd (default_case_candidates w)) -> is_default c = true).

(** The walk that a step hands on or leaves with. *)
Definition walk_of (r : ctl) : walk :=
  match r with Continue w => w | Break w => w end.

End ChainDefs.

(* ================================================================== *)
(** ** Concrete blocks, graphs and structuring runs used as inputs *)

Module Scenario.

Definition blk (a : Z) : Block := mkBlock a None [OtherStmt a].

(** A block whose only statement compares register 0 with [c]. *)
Definition cmp_block (a : Z) (op : string) (c t f : Z) : Block :=
  mkBlock a None
    [ConditionalJump (BinaryOp op (Register 0) (Const c 64))
                     (Const t 64) (Const f 64)].

(** [if (r0 >= 5) goto 0x100 else goto 0x200]. *)
Definition ge_block : Block := cmp_block 16 "CmpGE" 5 256 512.

(** Two default cases that differ in the compared expression only. *)
Definition case_with_expr : Case :=
  mkCase (blk 1) None 7 (Some (Register 0)) DefaultValue 32 None.
Definition case_without_expr : Case :=
  mkCase (blk 1) None 7 None DefaultValue 32 None.

(** P -> B -> C and Q -> E -> C. *)
Definition P := blk 1.
Definition Q := blk 2.
Definition B := blk 3.
Definition E := blk 4.
Definition C := blk 5.

Definition two_jumps : DiGraph.t :=
  DiGraph.of_edges [(P, B); (B, C); (Q, E); (E, C)].

(** A manager with one goto, in block [src], to address [dst]. *)
Definition one_goto (src : Block) (dst : Z) : GotoManager :=
  mkGotoManager [mkGoto (addr src) dst]
    (fun b => if Block_eqb b src then [mkGoto (addr src) dst] else []).

(** Structuring reports the goto of P while B is there, then the goto
    of Q while E is there, and then one goto in C. *)
Definition structure_same_count (g : DiGraph.t) : option GotoManager :=
  if DiGraph.has_node g B then Some (one_goto P 3)
  else if DiGraph.has_node g E then Some (one_goto Q 4)
  else Some (one_goto C 9).

(** The same, but structuring fails once B and E are both gone. *)
Definition structure_then_fail (g : DiGraph.t) : option GotoManager :=
  if DiGraph.has_node g B then Some (one_goto P 3)
  else if DiGraph.has_node g E then Some (one_goto Q 4)
  else None.

(** The graph after the first round: B was copied for P and removed. *)
Definition after_first_round : DiGraph.t :=
  [(P, [set_idx B (Some 0)]); (C, []); (Q, [E]); (E, [C]);
   (set_idx B (Some 0), [C])].

(** The graph after the second round: E was copied for Q and removed. *)
Definition after_second_round : DiGraph.t :=
  [(P, [set_idx B (Some 0)]); (C, []); (Q, [set_idx E (Some 1)]);
   (set_idx B (Some 0), [C]); (set_idx E (Some 1), [C])].


Definition two_gotos : GotoManager :=
  mkGotoManager [mkGoto 1 3; mkGoto 2 3]
    (fun b => if Block_eqb b P then [mkGoto 1 3]
              else if Block_eqb b Q then [mkGoto 2 3] else []).

(** P -> B -> C -> block 6, one goto to B in P and one goto to C in B:
    the copied block is itself to be updated. *)
Definition goto_chain : DiGraph.t :=
  DiGraph.of_edges [(P, B); (B, C); (C, blk 6)].

Definition chained_gotos : GotoManager :=
  mkGotoManager [mkGoto 1 3; mkGoto 3 5]
    (fun b => if Block_eqb b P then [mkGoto 1 3]
              else if Block_eqb b B then [mkGoto 3 5] else []).

(** The fields when the loop of [_analyze] leaves under
    [structure_same_count]: the third round finds nothing to copy. *)
Definition same_count_final : CrossJumpReverter.state :=
  CrossJumpReverter.mkState
    (Some after_second_round) (Some after_second_round)
    (Some (one_goto C 9)) (Some [mkGoto 1 3]) 2 None.

(** The fields when [_analyze] returns under [structure_then_fail]. *)
Definition then_fail_final : CrossJumpReverter.state :=
  CrossJumpReverter.mkState
    (Some after_first_round) (Some after_first_round)
    None (Some [mkGoto 1 3]) 2 None.

(** A four-way ladder on register 0:
    [1: r0 == 1 ? 11 : 2], [2: r0 == 2 ? 12 : 3], [3: r0 == 3 ? 13 : 14],
    every target going on to block 20. *)
Definition N1 : Block := cmp_block 1 "CmpEQ" 1 11 2.
Definition N2 : Block := cmp_block 2 "CmpEQ" 2 12 3.
Definition N3 : Block := cmp_block 3 "CmpEQ" 3 13 14.

Definition ladder : DiGraph.t :=
  DiGraph.of_edges
    [(N1, blk 11); (N1, N2); (N2, blk 12); (N2, N3); (N3, blk 13);
     (N3, blk 14); (blk 11, blk 20); (blk 12, blk 20); (blk 13, blk 20);
     (blk 14, blk 20)].

Definition hasher (e : Expr) : Z := 0.
Definition node_order (g : DiGraph.t) : list Block := DiGraph.nodes g.
Definition blocks_of (g : DiGraph.t) (a : Z) : list Block :=
  filter (fun b => addr b =? a) (DiGraph.nodes g).

(** Structuring always reports one goto, in block 20. *)
Definition structure_one_goto (g : DiGraph.t) : option GotoManager :=
  Some (one_goto (blk 20) 0).

Definition ladder_cases : list Case :=
  [mkCase N1 (Some "b"%string) 0 (Some (Register 0)) (IntValue 1) 11 (Some 2);
   mkCase N2 (Some "b"%string) 0 (Some (Register 0)) (IntValue 2) 12 (Some 3);
   mkCase N3 (Some "b"%string) 0 (Some (Register 0)) (IntValue 3) 13 (Some 14);
   mkCase N3 None 0 (Some (Register 0)) DefaultValue 14 None].

Definition ladder_case_addrs : list LoweredSwitchSimplifier.CaseAddr :=
  [(N1, IntValue 1, 11, Some 2); (N2, IntValue 2, 12, Some 3);
   (N3, IntValue 3, 13, Some 14); (N3, DefaultValue, 14, None)].

(** The head of the collapsed ladder. *)
Definition ladder_head : Block :=
  mkBlock 1 None
    [IncompleteSwitchCaseHeadStatement (Some (Register 0)) ladder_case_addrs].

Definition ladder_collapsed : DiGraph.t :=
  [(blk 11, [blk 20]); (blk 12, [blk 20]); (blk 13, [blk 20]);
   (blk 14, [blk 20]); (blk 20, []);
   (ladder_head, [blk 11; blk 12; blk 13; blk 14])].

(** A range split whose two arms end differently:
    [1: r0 > 5 ? 2 : 3], [2: r0 == 7 ? 12 : 14], [3: r0 == 1 ? 13 : 15];
    the pass knows one block at address 14 and two blocks at address 15. *)
Definition R1 : Block := cmp_block 1 "CmpGT" 5 2 3.
Definition R2 : Block := cmp_block 2 "CmpEQ" 7 12 14.
Definition R3 : Block := cmp_block 3 "CmpEQ" 1 13 15.

Definition range_split : DiGraph.t :=
  DiGraph.of_edges
    [(R1, R2); (R1, R3); (R2, blk 12); (R2, blk 14); (R3, blk 13);
     (R3, blk 15)].

Definition range_split_blocks (a : Z) : list Block :=
  if a =? 15 then [blk 15; set_idx (blk 15) (Some 0)]
  else blocks_of range_split a.

Definition range_split_cases : list Case :=
  [mkCase R2 (Some "b"%string) 0 (Some (Register 0)) (IntValue 7) 12 (Some 14);
   mkCase R3 (Some "b"%string) 0 (Some (Register 0)) (IntValue 1) 13 (Some 15);
   mkCase R3 None 0 (Some (Register 0)) DefaultValue 15 None;
   mkCase R2 None 0 (Some (Register 0)) DefaultValue 14 None].

(** Two ladders, one on register 0 and one on register 1:
    [1: r0 == 1 ? tA1 : 2], [2: r0 == 2 ? tA2 : dA] and
    [5: r1 == 1 ? 15 : 6], [6: r1 == 2 ? 30 : dB], entered from block 0. *)
Definition cmp_block_on (reg a : Z) (op : string) (c t f : Z) : Block :=
  mkBlock a None
    [ConditionalJump (BinaryOp op (Register reg) (Const c 64))
                     (Const t 64) (Const f 64)].

Definition reg_hasher (e : Expr) : Z :=
  match e with Register n => n | _ => 0 end.

Definition two_ladders (tA1 tA2 dA dB : Z) (rest : list (Block * Block))
  : DiGraph.t :=
  DiGraph.of_edges
    ([(blk 0, cmp_block_on 0 1 "CmpEQ" 1 tA1 2);
      (blk 0, cmp_block_on 1 5 "CmpEQ" 1 15 6);
      (cmp_block_on 0 1 "CmpEQ" 1 tA1 2, blk tA1);
      (cmp_block_on 0 1 "CmpEQ" 1 tA1 2, cmp_block_on 0 2 "CmpEQ" 2 tA2 dA);
      (cmp_block_on 0 2 "CmpEQ" 2 tA2 dA, blk tA2);
      (cmp_block_on 0 2 "CmpEQ" 2 tA2 dA, blk dA);
      (cmp_block_on 1 5 "CmpEQ" 1 15 6, blk 15);
      (cmp_block_on 1 5 "CmpEQ" 1 15 6, cmp_block_on 1 6 "CmpEQ" 2 30 dB);
      (cmp_block_on 1 6 "CmpEQ" 2 30 dB, blk 30);
      (cmp_block_on 1 6 "CmpEQ" 2 30 dB, blk dB)] ++ rest).

(** The head of such a collapsed ladder. *)
Definition head_of (reg a1 a2 t1 t2 d : Z) : Block :=
  mkBlock a1 None
    [IncompleteSwitchCaseHeadStatement (Some (Register reg))
       [(cmp_block_on reg a1 "CmpEQ" 1 t1 a2, IntValue 1, t1, Some a2);
        (cmp_block_on reg a2 "CmpEQ" 2 t2 d, IntValue 2, t2, Some d);
        (cmp_block_on reg a2 "CmpEQ" 2 t2 d, DefaultValue, d, None)]].

(** Scenario 4: the second case of both ladders jumps to block 30. *)
Definition shared_case : DiGraph.t :=
  two_ladders 11 30 14 16 [(blk 30, blk 40)].
Definition shared_case_headA : Block := head_of 0 1 2 11 30 14.
Definition shared_case_headB : Block := head_of 1 5 6 15 30 16.

(** Scenario 4 once both chains are applied, and what was recorded. *)
Definition shared_case_applied : DiGraph.t :=
  [(blk 0, [shared_case_headA; shared_case_headB]); (blk 11, []);
   (blk 30, [blk 40]); (blk 14, []); (blk 15, []); (blk 16, []);
   (blk 40, []);
   (shared_case_headA, [blk 11; blk 30; blk 14]);
   (shared_case_headB, [blk 15; blk 30; blk 16])].
Definition shared_case_recorded : LoweredSwitchSimplifier.NodeToHeads :=
  [(blk 30, [shared_case_headA; shared_case_headB]);
   (blk 14, [shared_case_headA]); (blk 16, [shared_case_headB])].


(** Block 30 is the target of the first case of ladder A, the case of
    the head itself, and of the second case of ladder B. *)
Definition shared_by_head : DiGraph.t :=
  two_ladders 30 12 14 16 [(blk 30, blk 40)].
Definition shared_by_head_headA : Block := head_of 0 1 2 30 12 14.
Definition shared_by_head_headB : Block := head_of 1 5 6 15 30 16.

(** The four-way ladder restored from its collapsed form: the head has
    lost the placeholder and leads to the first comparison block. *)
Definition ladder_head_restored : Block := mkBlock 1 None [].

Definition ladder_restored : DiGraph.t :=
  [(blk 11, [blk 20]); (blk 12, [blk 20]); (blk 13, [blk 20]);
   (blk 14, [blk 20]); (blk 20, []);
   (ladder_head_restored, [N1]);
   (N1, [blk 11; N2]); (N2, [blk 12; N3]); (N3, [blk 13; blk 14])].

(** A ladder whose first case jumps to its own third comparison block:
    [1: r0 == 1 ? 3 : 2], [2: r0 == 2 ? 12 : 3], [3: r0 == 3 ? 13 : 14]. *)
Definition J1 : Block := cmp_block 1 "CmpEQ" 1 3 2.
Definition J2 : Block := cmp_block 2 "CmpEQ" 2 12 3.
Definition J3 : Block := cmp_block 3 "CmpEQ" 3 13 14.

Definition jump_into_chain : DiGraph.t :=
  DiGraph.of_edges
    [(J1, J3); (J1, J2); (J2, blk 12); (J2, J3); (J3, blk 13); (J3, blk 14)].

Definition jump_cases : list Case :=
  [mkCase J1 (Some "b"%string) 0 (Some (Register 0)) (IntValue 1) 3 (Some 2);
   mkCase J2 (Some "b"%string) 0 (Some (Register 0)) (IntValue 2) 12 (Some 3);
   mkCase J3 (Some "b"%string) 0 (Some (Register 0)) (IntValue 3) 13 (Some 14)].

Definition jump_case_addrs : list LoweredSwitchSimplifier.CaseAddr :=
  [(J1, IntValue 1, 3, Some 2); (J2, IntValue 2, 12, Some 3);
   (J3, IntValue 3, 13, Some 14)].

Definition jump_head : Block :=
  mkBlock 1 None
    [IncompleteSwitchCaseHeadStatement (Some (Register 0)) jump_case_addrs].

Definition jump_collapsed : DiGraph.t :=
  [(blk 12, []); (blk 13, []); (blk 14, []);
   (jump_head, [blk 12; blk 13; blk 14])].



(** Scenario 1 in a graph that already holds a block with the address
    of B and the index 0, between E and block 6. *)
Definition stale_copy : DiGraph.t :=
  DiGraph.of_edges
    [(P, B); (Q, B); (B, C); (E, set_idx B (Some 0));
     (set_idx B (Some 0), blk 6)].

(** [r1 = r2; if (r0 != 4) goto 30 else goto 31]: a comparison that is
    not the first statement of its block. *)
Definition assign_cmp_block : Block :=
  mkBlock 7 None
    [Assignment (Register 1) (Register 2);
     ConditionalJump (BinaryOp "CmpNE" (Register 0) (Const 4 64))
                     (Const 30 64) (Const 31 64)].

End Scenario.

(* ================================================================== *)
(** * Theorems *)

(** ** Equality of blocks and cases *)

Lemma Block_eqb_true_iff (a b : Block) : Block_eqb a b = true <-> a = b.
Proof.
  unfold Block_eqb. destruct (Block_eq_dec a b); split; congruence.
Qed.

Lemma Block_eqb_refl (a : Block) : Block_eqb a a = true.
Proof. apply Block_eqb_true_iff. reflexivity. Qed.

Lemma Block_eqb_false_iff (a b : Block) : Block_eqb a b = false <-> a <> b.
Proof.
  unfold Block_eqb. destruct (Block_eq_dec a b); split; congruence.
Qed.

Lemma mem_In (b : Block) (l : list Block) : mem b l = true <-> In b l.
Proof.
  unfold mem. rewrite existsb_exists. split.
  - intros [x [Hx He]]. apply Block_eqb_true_iff in He. subst. exact Hx.
  - intros H. exists b. split; [exact H | apply Block_eqb_refl].
Qed.

Lemma mem_false_iff (b : Block) (l : list Block) : mem b l = false <-> ~ In b l.
Proof.
  rewrite <- mem_In. destruct (mem b l); split; congruence.
Qed.

Module CaseSpec.

Lemma option_string_eqb_eq a b : option_string_eqb a b = true <-> a = b.
Proof.
  destruct a as [x|], b as [y|]; simpl; try (split; congruence).
  rewrite String.eqb_eq. split; congruence.
Qed.

Lemma option_Z_eqb_eq a b : option_Z_eqb a b = true <-> a = b.
Proof.
  destruct a as [x|], b as [y|]; simpl; try (split; congruence).
  rewrite Z.eqb_eq. split; congruence.
Qed.

Lemma CaseValue_eqb_eq a b : CaseValue_eqb a b = true <-> a = b.
Proof.
  destruct a as [x|], b as [y|]; simpl; try (split; congruence).
  rewrite Z.eqb_eq. split; congruence.
Qed.

Lemma Case_eqb_fields (c1 c2 : Case) :
  Case_eqb c1 c2 = true <->
  original_node c1 = original_node c2 /\ node_type c1 = node_type c2 /\
  variable_hash c1 = variable_hash c2 /\ value c1 = value c2 /\
  target c1 = target c2 /\ next_addr c1 = next_addr c2.
Proof.
  unfold Case_eqb. rewrite !andb_true_iff, Block_eqb_true_iff,
    option_string_eqb_eq, Z.eqb_eq, CaseValue_eqb_eq, Z.eqb_eq,
    option_Z_eqb_eq.
  tauto.
Qed.

(** C7 (as the code has it): two Cases compare equal exactly when the
    six fields other than the compared expression match (originating
    block, shape tag, expression hash, value, jump target, fallthrough
    address), and Cases that compare equal have equal hashes. *)
Theorem Case_eq_iff_fields_but_expr (py_hash : list PyValue -> Z) (c1 c2 : Case) :
  (Case_eqb c1 c2 = true <->
   original_node c1 = original_node c2 /\ node_type c1 = node_type c2 /\
   variable_hash c1 = variable_hash c2 /\ value c1 = value c2 /\
   target c1 = target c2 /\ next_addr c1 = next_addr c2)
  /\ (Case_eqb c1 c2 = true -> Case_hash py_hash c1 = Case_hash py_hash c2).
Proof.
  split; [apply Case_eqb_fields |].
  intros H. apply Case_eqb_fields in H.
  destruct H as (H1 & H2 & H3 & H4 & H5 & H6).
  unfold Case_hash, hash_key. rewrite H1, H2, H3, H4, H5, H6. reflexivity.
Qed.

(** C7 as stated fails: two Cases whose compared expressions differ
    compare equal, so equality does not imply that all fields match. *)
Lemma Case_eq_ignores_expr :
  Case_eqb Scenario.case_with_expr Scenario.case_without_expr = true
  /\ expr Scenario.case_with_expr <> expr Scenario.case_without_expr
  /\ ~ (forall c1 c2 : Case, Case_eqb c1 c2 = true <-> c1 = c2).
Proof.
  split; [reflexivity |]. split; [discriminate |].
  intros H.
  assert (E : Scenario.case_with_expr = Scenario.case_without_expr)
    by (apply H; reflexivity).
  discriminate E.
Qed.

End CaseSpec.

(** ** The Cross-Jump Reverter *)

Module CrossJumpReverterSpec.
Import CrossJumpReverter.

Section Commit.

Variable structure : DiGraph.t -> option GotoManager.
Variable G0 : DiGraph.t.

(** What [_structure_graph] does to the fields, by the outcome of the
    structuring run. *)
Lemma _structure_graph_spec (st : state) :
  (exists g gm,
      graph_copy st = Some g /\ structure g = Some gm /\
      _structure_graph structure st =
        (mkState (Some g) (last_graph st) (Some gm)
                 (match initial_gotos st with
                  | None => Some (gotos gm)
                  | Some i => Some i
                  end)
                 (node_idx st) (out_graph st),
         (true, negb (length (gotos gm) =? 0)%nat)))
  \/ (_structure_graph structure st = (set_goto_manager st None, (false, false))
      /\ forall g, graph_copy st = Some g -> structure g = None).
Proof.
  unfold _structure_graph. destruct st as [gc lg gm0 ini ni og]; simpl.
  destruct gc as [g|]; simpl.
  - destruct (structure g) as [gm|] eqn:Hs.
    + left. exists g, gm. repeat split; try assumption.
      destruct ini; reflexivity.
    + right. split; [reflexivity |]. intros g' Hg. congruence.
  - right. split; [reflexivity |]. intros g' Hg. discriminate.
Qed.

(** Through the rounds nothing is committed, and the first measured goto
    set is that of the first structuring run, on the first graph. *)
Lemma rounds_invariant (level : nat) :
  forall (st : state) (u : bool) (st' : state) (u' : bool),
    out_graph st = None ->
    ((initial_gotos st = None /\ graph_copy st = Some G0 /\ u = false) \/
     (exists gm0, structure G0 = Some gm0 /\
                  initial_gotos st = Some (gotos gm0))) ->
    rounds structure level st u = Ok (st', u') ->
    out_graph st' = None /\
    ((initial_gotos st' = None /\ u' = false) \/
     (exists gm0, structure G0 = Some gm0 /\
                  initial_gotos st' = Some (gotos gm0))).
Proof.
  induction level as [|level IH]; intros st u st' u' Hout Hini Hr.
  - simpl in Hr. inversion Hr; subst. split; [assumption |].
    destruct Hini as [(H1 & _ & H3) | H]; [left | right]; auto.
  - simpl in Hr.
    destruct (_structure_graph_spec st) as [(g & gm & Hg & Hs & E) | (E & Hf)];
      rewrite E in Hr; clear E; simpl in Hr.
    + assert (Hini' :
        exists gm0, structure G0 = Some gm0 /\
          match initial_gotos st with
          | None => Some (gotos gm)
          | Some i => Some i
          end = Some (gotos gm0)).
      { destruct Hini as [(H1 & H2 & _) | (gm0 & H1 & H2)].
        - rewrite H1. exists gm. split; [congruence | reflexivity].
        - rewrite H2. exists gm0. split; [assumption | reflexivity]. }
      destruct (length (gotos gm) =? 0)%nat; simpl in Hr.
      * inversion Hr; subst; simpl. split; [assumption | right; assumption].
      * destruct (_analyze_core gm g (node_idx st)) as [[[g' i] r]|e] eqn:Hc;
          simpl in Hr; [| discriminate].
        destruct r; simpl in Hr.
        -- eapply IH in Hr; [exact Hr | simpl; assumption |].
           right. simpl. exact Hini'.
        -- inversion Hr; subst; simpl. split; [assumption | right; assumption].
    + inversion Hr; subst; simpl. split; [assumption |].
      destruct Hini as [(H1 & _ & H3) | H]; [left | right]; auto.
Qed.

(** While a goto manager is held, the working graph is there. *)
Lemma rounds_graph_copy (level : nat) :
  forall (st : state) (u : bool) (st' : state) (u' : bool),
    (goto_manager st = None \/ exists g, graph_copy st = Some g) ->
    rounds structure level st u = Ok (st', u') ->
    goto_manager st' = None \/ exists g, graph_copy st' = Some g.
Proof.
  induction level as [|level IH]; intros st u st' u' Hinv Hr.
  - simpl in Hr. inversion Hr; subst. exact Hinv.
  - simpl in Hr.
    destruct (_structure_graph_spec st) as [(g & gm & Hg & Hs & E) | (E & Hf)];
      rewrite E in Hr; clear E; simpl in Hr.
    + destruct (length (gotos gm) =? 0)%nat; simpl in Hr.
      * inversion Hr; subst; simpl. right. exists g. reflexivity.
      * destruct (_analyze_core gm g (node_idx st)) as [[[g' i] r]|e] eqn:Hc;
          simpl in Hr; [| discriminate].
        destruct r; simpl in Hr.
        -- eapply IH in Hr; [exact Hr |]. right. exists g'. reflexivity.
        -- inversion Hr; subst; simpl. right. exists g'. reflexivity.
    + inversion Hr; subst; simpl. left. reflexivity.
Qed.

End Commit.

(** C1 (as the code has it): in a run in which at least one duplication
    round edited the graph and whose last structuring run succeeded, the
    edited working graph becomes the output exactly when the goto count
    of that last run is less than or equal to the first goto count
    measured; when it is greater, no output graph is set. *)
Theorem commit_iff_not_more_gotos
        (structure : DiGraph.t -> option GotoManager)
        (to_ail_supergraph : DiGraph.t -> DiGraph.t)
        (max_level : nat) (graph : DiGraph.t) (node_idx_start : Z)
        (st : state) (gm : GotoManager) :
  rounds structure max_level
         (init_state to_ail_supergraph graph node_idx_start) false
    = Ok (st, true) ->
  goto_manager st = Some gm ->
  _analyze structure to_ail_supergraph max_level graph node_idx_start
    = Ok (commit st true) /\
  exists gm0 g,
    structure (to_ail_supergraph (DiGraph.copy graph)) = Some gm0 /\
    initial_gotos st = Some (gotos gm0) /\
    graph_copy st = Some g /\
    (out_graph (commit st true) = Some g <->
     (length (gotos gm) <= length (gotos gm0))%nat) /\
    (out_graph (commit st true) = None <->
     (length (gotos gm0) < length (gotos gm))%nat).
Proof.
  intros Hr Hgm. split.
  { unfold _analyze. rewrite Hr. reflexivity. }
  destruct (rounds_invariant structure
              (to_ail_supergraph (DiGraph.copy graph)) max_level
              (init_state to_ail_supergraph graph node_idx_start) false
              st true eq_refl
              (or_introl (conj eq_refl (conj eq_refl eq_refl))) Hr)
    as [Hout Hini].
  destruct Hini as [(_ & Hu) | (gm0 & Hs & Hi)]; [discriminate |].
  destruct (rounds_graph_copy structure max_level
              (init_state to_ail_supergraph graph node_idx_start) false
              st true (or_introl eq_refl) Hr) as [Hn | [g Hg]];
    [congruence |].
  exists gm0, g. split; [assumption |]. split; [assumption |].
  split; [assumption |].
  unfold commit. rewrite Hi, Hg, Hgm. simpl.
  destruct (length (gotos gm0) <? length (gotos gm))%nat eqn:Hlt; simpl.
  - apply Nat.ltb_lt in Hlt. rewrite Hout. split.
    + split; [discriminate | lia].
    + split; [intros _; exact Hlt | reflexivity].
  - apply Nat.ltb_ge in Hlt. split.
    + split; [intros _; exact Hlt | reflexivity].
    + split; [discriminate | lia].
Qed.

End CrossJumpReverterSpec.

Module CrossJumpReverterRuns.
Import CrossJumpReverter.

Lemma same_count_rounds :
  rounds Scenario.structure_same_count 10
         (init_state (fun g => g) Scenario.two_jumps 0) false
  = Ok (Scenario.same_count_final, true).
Proof. vm_compute. reflexivity. Qed.

(** A run at which the hypothesis of [commit_iff_not_more_gotos] holds. *)
Lemma commit_iff_not_more_gotos_witness :
  rounds Scenario.structure_same_count 10
         (init_state (fun g => g) Scenario.two_jumps 0) false
  = Ok (Scenario.same_count_final, true)
  /\ _analyze Scenario.structure_same_count (fun g => g) 10
              Scenario.two_jumps 0
     = Ok (commit Scenario.same_count_final true).
Proof.
  split; [vm_compute; reflexivity |].
  apply (CrossJumpReverterSpec.commit_iff_not_more_gotos
           Scenario.structure_same_count (fun g => g) 10
           Scenario.two_jumps 0 Scenario.same_count_final
           (Scenario.one_goto Scenario.C 9)).
  - vm_compute. reflexivity.
  - reflexivity.
Defined.

(** C1 as stated fails: in this run two rounds edit the graph, the
    first and the last structuring runs both report one goto, the last
    count is not strictly less than the first, and yet the edited graph
    is the output. *)
Lemma commit_with_equal_goto_count :
  exists st,
    rounds Scenario.structure_same_count 10
           (init_state (fun g => g) Scenario.two_jumps 0) false
      = Ok (st, true)
    /\ _analyze Scenario.structure_same_count (fun g => g) 10
                Scenario.two_jumps 0 = Ok (commit st true)
    /\ out_graph (commit st true) = Some Scenario.after_second_round
    /\ option_map (@length Goto) (initial_gotos st) = Some 1%nat
    /\ option_map (fun gm => length (gotos gm)) (goto_manager st) = Some 1%nat
    /\ ~ (1 < 1)%nat.
Proof.
  exists Scenario.same_count_final.
  split; [exact same_count_rounds |].
  split; [vm_compute; reflexivity |].
  split; [vm_compute; reflexivity |].
  split; [reflexivity |]. split; [reflexivity |]. lia.
Qed.

(** C3, the code at the failing input: two rounds edit the graph, the
    structuring run of the third round fails; the working graph falls
    back to the snapshot taken in the second round (the graph edited by
    the first round), but no output graph is set. *)
Theorem structuring_failure_discards_progress :
  rounds Scenario.structure_then_fail 10
         (init_state (fun g => g) Scenario.two_jumps 0) false
    = Ok (Scenario.then_fail_final, true)
  /\ _analyze Scenario.structure_then_fail (fun g => g) 10
              Scenario.two_jumps 0 = Ok Scenario.then_fail_final
  /\ graph_copy Scenario.then_fail_final = Some Scenario.after_first_round
  /\ Scenario.after_first_round <> DiGraph.copy Scenario.two_jumps
  /\ out_graph Scenario.then_fail_final = None.
Proof.
  split; [vm_compute; reflexivity |].
  split; [vm_compute; reflexivity |].
  split; [reflexivity |]. split; [| reflexivity].
  vm_compute. discriminate.
Qed.

End CrossJumpReverterRuns.

(** ** The classifier of range comparisons *)

Module ClassifierSpec.
Import LoweredSwitchSimplifier Semantics.

(** For the operators >, < and <= the tuple of a Shape C block says what
    the block's jump does: the greater target exactly when the compared
    expression is greater than the value. *)
Lemma type_c_normalized_but_CmpGE
      (hasher : Expr -> Z) (node : Block) (stmt : Stmt) (r : Comparison)
      (op : string) (e : Expr) (c t f : Z) :
  _find_switch_variable_comparison_type_c hasher node = Some r ->
  rev (statements node) = stmt :: tl (rev (statements node)) ->
  comparison_stmt stmt = Some (op, e, c, t, f) ->
  op <> "CmpGE"%string ->
  forall x, branch_taken stmt x = Some (gt_partition r x).
Proof.
  unfold _find_switch_variable_comparison_type_c, branch_taken.
  intros Hc Hrev Hs Hop x. rewrite Hrev in Hc.
  destruct (first_nonlabel_is_last (statements node)); [| discriminate].
  rewrite Hs in *. unfold cmp_holds.
  destruct (t =? f); [discriminate |].
  destruct (String.eqb op "CmpGT") eqn:E1.
  { apply String.eqb_eq in E1; subst op; simpl.
    inversion Hc; subst; simpl. reflexivity. }
  destruct (String.eqb op "CmpGE") eqn:E2.
  { apply String.eqb_eq in E2. contradiction. }
  destruct (String.eqb op "CmpLT") eqn:E3.
  { apply String.eqb_eq in E3; subst op; simpl.
    inversion Hc; subst; simpl.
    destruct (x <? c) eqn:A, (x >? c - 1) eqn:B0; try reflexivity; lia. }
  destruct (String.eqb op "CmpLE") eqn:E4.
  { apply String.eqb_eq in E4; subst op; simpl.
    inversion Hc; subst; simpl.
    destruct (x <=? c) eqn:A, (x >? c) eqn:B0; try reflexivity; lia. }
  discriminate.
Qed.

(** C5, the code at the failing input: for the block
    [if (r0 >= 5) goto 0x100 else goto 0x200] the classifier returns the
    value 6 with the greater target 0x100; when r0 is 5 (or 6) the block
    jumps to 0x100, whereas [5 > 6] does not hold and the tuple names
    0x200. *)
Theorem type_c_CmpGE_adds_one (hasher : Expr -> Z) :
  _find_switch_variable_comparison_type_c hasher Scenario.ge_block
    = Some (hasher (Register 0), "gt"%string, Register 0, 6, 256, 512)
  /\ (forall stmt, In stmt (statements Scenario.ge_block) ->
        branch_taken stmt 5 = Some 256 /\ branch_taken stmt 6 = Some 256)
  /\ gt_partition (hasher (Register 0), "gt"%string, Register 0, 6, 256, 512) 5
     = 512
  /\ gt_partition (hasher (Register 0), "gt"%string, Register 0, 6, 256, 512) 6
     = 512.
Proof.
  split; [reflexivity |]. split; [| split; reflexivity].
  intros stmt [H | []]. subst stmt. split; reflexivity.
Qed.

(** The value a >= comparison would need is one less, not one more. *)
Lemma CmpGE_needs_minus_one (x c : Z) :
  cmp_holds "CmpGE" x c = Some (x >? c - 1).
Proof.
  unfold cmp_holds; simpl.
  destruct (x >=? c) eqn:A, (x >? c - 1) eqn:B0; try reflexivity; lia.
Qed.

End ClassifierSpec.

(** ** The Switch-Ladder pass as a whole *)

Module LoweredSwitchSimplifierSpec.
Import LoweredSwitchSimplifier.

Section Pass.

Variable StableVarExprHasher : Expr -> Z.
Variable quasi_topological_sort_nodes : DiGraph.t -> list Block.
Variable _get_blocks : Z -> list Block.
Variable structure : DiGraph.t -> option GotoManager.
Variable arch_bits : Z.

(** C10: when the first structuring run fails or reports no goto, the
    pass sets no output graph. This holds for every step budget of the
    recognizer, zero included, and for every hasher, node order and
    block table: neither the recognizer nor the rewrite is run. *)
Theorem no_gotos_no_rewrite (fuel : nat) (graph : DiGraph.t) :
  structure (DiGraph.copy graph) = None \/
  (exists gm, structure (DiGraph.copy graph) = Some gm /\ gotos gm = []) ->
  _analyze StableVarExprHasher quasi_topological_sort_nodes _get_blocks
           structure arch_bits fuel graph = Ok None.
Proof.
  intros [H | (gm & H & Hg)]; unfold _analyze, _structure_and_find_gotos;
    rewrite H; [| rewrite Hg]; reflexivity.
Qed.

(** C2: once the recognizer has returned chains and the rewrite has
    produced a graph, that graph is the output exactly when structuring
    it succeeds with no more gotos than were measured on the original
    graph; when structuring fails or reports more gotos, the pass has no
    output graph. *)
Theorem rewrite_kept_iff_validated
        (fuel : nat) (graph : DiGraph.t) (initial_gotos : list Goto)
        (variablehash_to_cases : CaseLists) (out_graph : DiGraph.t) :
  _structure_and_find_gotos structure (DiGraph.copy graph)
    = Some initial_gotos ->
  initial_gotos <> [] ->
  _find_cascading_switch_variable_comparisons
    StableVarExprHasher quasi_topological_sort_nodes _get_blocks fuel graph
    = Ok variablehash_to_cases ->
  variablehash_to_cases <> [] ->
  rewrite arch_bits graph variablehash_to_cases = Ok (Some out_graph) ->
  (_analyze StableVarExprHasher quasi_topological_sort_nodes _get_blocks
            structure arch_bits fuel graph = Ok (Some out_graph)
   /\ exists new_gotos,
        _structure_and_find_gotos structure out_graph = Some new_gotos
        /\ (length new_gotos <= length initial_gotos)%nat)
  \/
  (_analyze StableVarExprHasher quasi_topological_sort_nodes _get_blocks
            structure arch_bits fuel graph = Ok None
   /\ (_structure_and_find_gotos structure out_graph = None
       \/ exists new_gotos,
            _structure_and_find_gotos structure out_graph = Some new_gotos
            /\ (length initial_gotos < length new_gotos)%nat)).
Proof.
  intros Hi Hne Hrec Hcs Hrw.
  unfold _analyze. rewrite Hi.
  destruct initial_gotos as [|g0 gs]; [congruence |].
  rewrite Hrec. simpl.
  destruct variablehash_to_cases as [|c cs]; [congruence |].
  rewrite Hrw. simpl. unfold validate.
  destruct (_structure_and_find_gotos structure out_graph) as [new|] eqn:Hn.
  - destruct (length (g0 :: gs) <? length new)%nat eqn:Hlt.
    + right. split; [reflexivity |]. right. exists new.
      split; [reflexivity |]. apply Nat.ltb_lt. exact Hlt.
    + left. split; [reflexivity |]. exists new.
      split; [reflexivity |]. apply Nat.ltb_ge. exact Hlt.
  - right. split; [reflexivity |]. left. reflexivity.
Qed.

End Pass.

(** A run at which the hypothesis of [no_gotos_no_rewrite] holds. *)
Lemma no_gotos_no_rewrite_witness :
  _analyze Scenario.hasher Scenario.node_order
           (Scenario.blocks_of Scenario.ladder) (fun _ => None) 64 0
           Scenario.ladder = Ok None.
Proof.
  apply (no_gotos_no_rewrite Scenario.hasher Scenario.node_order
           (Scenario.blocks_of Scenario.ladder) (fun _ => None) 64 0
           Scenario.ladder).
  left. reflexivity.
Defined.

Lemma ladder_recognized :
  _find_cascading_switch_variable_comparisons
    Scenario.hasher Scenario.node_order (Scenario.blocks_of Scenario.ladder)
    10 Scenario.ladder
  = Ok [(0, [(Scenario.ladder_cases, [])])].
Proof. vm_compute. reflexivity. Qed.

Lemma ladder_rewritten :
  rewrite 64 Scenario.ladder [(0, [(Scenario.ladder_cases, [])])]
  = Ok (Some Scenario.ladder_collapsed).
Proof. vm_compute. reflexivity. Qed.

(** A run at which the hypotheses of [rewrite_kept_iff_validated] hold:
    the four-way ladder, collapsed and validated. *)
Lemma rewrite_kept_iff_validated_witness :
  _analyze Scenario.hasher Scenario.node_order
           (Scenario.blocks_of Scenario.ladder) Scenario.structure_one_goto
           64 10 Scenario.ladder = Ok (Some Scenario.ladder_collapsed).
Proof.
  destruct (rewrite_kept_iff_validated
              Scenario.hasher Scenario.node_order
              (Scenario.blocks_of Scenario.ladder)
              Scenario.structure_one_goto 64 10 Scenario.ladder
              [mkGoto 20 0] [(0, [(Scenario.ladder_cases, [])])]
              Scenario.ladder_collapsed
              eq_refl ltac:(discriminate) ltac:(vm_compute; reflexivity)
              ltac:(discriminate) ltac:(vm_compute; reflexivity))
    as [[H _] | [_ [H | (n & H & Hl)]]].
  - exact H.
  - discriminate H.
  - exfalso. inversion H; subst. simpl in Hl. lia.
Defined.

End LoweredSwitchSimplifierSpec.

(** ** Facts on graphs: every operation read through [adj] *)

Module DiGraphFacts.
Import DiGraph.

Lemma mem_app (b : Block) (l1 l2 : list Block) :
  mem b (l1 ++ l2) = mem b l1 || mem b l2.
Proof. unfold mem. apply existsb_app. Qed.

Lemma mem_drop (b n : Block) (l : list Block) :
  mem b (drop n l) = mem b l && negb (Block_eqb b n).
Proof.
  unfold drop. induction l as [|x l IH]; simpl; [reflexivity |].
  destruct (Block_eqb x n) eqn:E; simpl.
  - rewrite IH. apply Block_eqb_true_iff in E. subst x.
    destruct (Block_eqb b n); simpl; [| reflexivity].
    rewrite andb_false_r. reflexivity.
  - rewrite IH. destruct (Block_eqb b x) eqn:E2; simpl; [| reflexivity].
    apply Block_eqb_true_iff in E2. subst x. rewrite E. reflexivity.
Qed.


Lemma has_node_adj (g : t) (n : Block) :
  has_node g n = match adj g n with Some _ => true | None => false end.
Proof.
  unfold has_node, nodes. induction g as [|[k vs] g IH]; simpl; [reflexivity |].
  destruct (Block_eqb k n) eqn:E.
  - apply Block_eqb_true_iff in E. subst k. rewrite Block_eqb_refl. reflexivity.
  - assert (E' : Block_eqb n k = false).
    { apply Block_eqb_false_iff. apply Block_eqb_false_iff in E. congruence. }
    rewrite E'. simpl. exact IH.
Qed.

Lemma adj_app (g h : t) (x : Block) :
  adj (g ++ h) x = match adj g x with Some vs => Some vs | None => adj h x end.
Proof.
  induction g as [|[k vs] g IH]; simpl; [reflexivity |].
  destruct (Block_eqb k x); [reflexivity | exact IH].
Qed.

Lemma adj_add_node (g : t) (n x : Block) :
  adj (add_node g n) x =
  match adj g x with
  | Some vs => Some vs
  | None => if Block_eqb n x then Some [] else None
  end.
Proof.
  unfold add_node. rewrite has_node_adj.
  destruct (adj g n) as [vn|] eqn:En.
  - destruct (adj g x) eqn:Ex; [reflexivity |].
    destruct (Block_eqb n x) eqn:E; [| reflexivity].
    apply Block_eqb_true_iff in E. congruence.
  - rewrite adj_app. simpl. reflexivity.
Qed.

Lemma adj_map (f : Block * list Block -> Block * list Block) (g : t) (x : Block) :
  (forall kv, fst (f kv) = fst kv) ->
  adj (map f g) x = option_map (fun vs => snd (f (x, vs))) (adj g x).
Proof.
  intros Hf. induction g as [|[k vs] g IH]; simpl; [reflexivity |].
  destruct (f (k, vs)) as [k' vs'] eqn:E.
  pose proof (Hf (k, vs)) as Hk. rewrite E in Hk. simpl in Hk. subst k'.
  destruct (Block_eqb k x) eqn:Ek.
  - apply Block_eqb_true_iff in Ek. subst k. simpl. rewrite E. reflexivity.
  - exact IH.
Qed.

Lemma add_succ_fst u v kv : fst (add_succ u v kv) = fst kv.
Proof. unfold add_succ. destruct (Block_eqb (fst kv) u); reflexivity. Qed.

Lemma del_succ_fst u v kv : fst (del_succ u v kv) = fst kv.
Proof. unfold del_succ. destruct (Block_eqb (fst kv) u); reflexivity. Qed.

(** The successors after [add_edge]. *)
Lemma adj_add_edge (g : t) (u v x : Block) :
  adj (add_edge g u v) x =
  option_map (fun vs => if Block_eqb x u
                        then (if mem v vs then vs else vs ++ [v])
                        else vs)
             (adj (add_node (add_node g u) v) x).
Proof.
  unfold add_edge. rewrite adj_map by apply add_succ_fst.
  destruct (adj (add_node (add_node g u) v) x); [| reflexivity].
  simpl. unfold add_succ. simpl. destruct (Block_eqb x u); reflexivity.
Qed.

Lemma adj_add_edge_other (g : t) (u v x : Block) :
  x <> u -> x <> v -> adj (add_edge g u v) x = adj g x.
Proof.
  intros Hu Hv. rewrite adj_add_edge, !adj_add_node.
  apply Block_eqb_false_iff in Hu.
  assert (Hu' : Block_eqb u x = false).
  { apply Block_eqb_false_iff. apply Block_eqb_false_iff in Hu. congruence. }
  assert (Hv' : Block_eqb v x = false).
  { apply Block_eqb_false_iff. congruence. }
  rewrite Hu', Hv'. destruct (adj g x); simpl; [rewrite Hu |]; reflexivity.
Qed.

(** The successors after the removal of an edge. *)
Lemma adj_del_succ (g : t) (u v x : Block) :
  adj (map (del_succ u v) g) x =
  option_map (fun vs => if Block_eqb x u then drop v vs else vs) (adj g x).
Proof.
  rewrite adj_map by apply del_succ_fst.
  destruct (adj g x); [| reflexivity].
  simpl. unfold del_succ. simpl. destruct (Block_eqb x u); reflexivity.
Qed.

Lemma adj_filter_key (g : t) (n x : Block) :
  adj (filter (fun kv => negb (Block_eqb (fst kv) n)) g) x =
  if Block_eqb x n then None else adj g x.
Proof.
  induction g as [|[k vs] g IH]; simpl.
  - destruct (Block_eqb x n); reflexivity.
  - destruct (Block_eqb k n) eqn:Ek; simpl.
    + rewrite IH. destruct (Block_eqb x n) eqn:Ex; [reflexivity |].
      apply Block_eqb_true_iff in Ek. subst k.
      assert (E : Block_eqb n x = false).
      { apply Block_eqb_false_iff. apply Block_eqb_false_iff in Ex. congruence. }
      rewrite E. reflexivity.
    + destruct (Block_eqb k x) eqn:Ekx.
      * apply Block_eqb_true_iff in Ekx. subst k. rewrite Ek. reflexivity.
      * exact IH.
Qed.

(** The successors after the removal of a node. *)
Lemma adj_remove_node (g g' : t) (n x : Block) :
  remove_node g n = Ok g' ->
  adj g' x = if Block_eqb x n then None else option_map (drop n) (adj g x).
Proof.
  unfold remove_node. destruct (has_node g n); [| discriminate].
  intros H. inversion H; subst g'; clear H.
  rewrite adj_map by reflexivity. rewrite adj_filter_key.
  destruct (Block_eqb x n); [reflexivity |].
  destruct (adj g x); reflexivity.
Qed.

Lemma pred_list_app (g h : t) (n : Block) :
  pred_list (g ++ h) n = pred_list g n ++ pred_list h n.
Proof. unfold pred_list. rewrite filter_app, map_app. reflexivity. Qed.

Lemma pred_list_add_node (g : t) (x n : Block) :
  pred_list (add_node g x) n = pred_list g n.
Proof.
  unfold add_node. destruct (has_node g x); [reflexivity |].
  rewrite pred_list_app. simpl. apply app_nil_r.
Qed.

Lemma pred_list_map_add_succ (g : t) (u v n : Block) :
  n <> v -> pred_list (map (add_succ u v) g) n = pred_list g n.
Proof.
  intros Hn. unfold pred_list.
  induction g as [|[k vs] g IH]; simpl; [reflexivity |].
  assert (E : mem n (snd (add_succ u v (k, vs))) = mem n vs).
  { unfold add_succ. simpl. destruct (Block_eqb k u); simpl; [| reflexivity].
    destruct (mem v vs); [reflexivity |].
    rewrite mem_app. simpl.
    assert (E : Block_eqb n v = false) by (apply Block_eqb_false_iff; exact Hn).
    rewrite E. rewrite !orb_false_r. reflexivity. }
  rewrite E.
  destruct (mem n vs); simpl; [rewrite add_succ_fst; simpl |];
    rewrite IH; reflexivity.
Qed.

(** Adding an edge to another block leaves the predecessors alone. *)
Lemma pred_list_add_edge_other (g : t) (u v n : Block) :
  n <> v -> pred_list (add_edge g u v) n = pred_list g n.
Proof.
  intros Hn. unfold add_edge.
  rewrite pred_list_map_add_succ by exact Hn.
  rewrite !pred_list_add_node. reflexivity.
Qed.

(** Removing the edge [u -> n] removes [u] from the predecessors. *)
Lemma pred_list_del_succ (g : t) (u n : Block) :
  pred_list (map (del_succ u n) g) n =
  filter (fun k => negb (Block_eqb k u)) (pred_list g n).
Proof.
  unfold pred_list.
  induction g as [|[k vs] g IH]; simpl; [reflexivity |].
  destruct (Block_eqb k u) eqn:Ek.
  - assert (E : del_succ u n (k, vs) = (k, drop n vs))
      by (unfold del_succ; simpl; rewrite Ek; reflexivity).
    rewrite E. simpl. rewrite mem_drop, Block_eqb_refl, andb_false_r.
    destruct (mem n vs); simpl; [rewrite Ek; simpl |]; exact IH.
  - assert (E : del_succ u n (k, vs) = (k, vs))
      by (unfold del_succ; simpl; rewrite Ek; reflexivity).
    rewrite E. simpl.
    destruct (mem n vs); simpl; [rewrite Ek; simpl |]; rewrite IH; reflexivity.
Qed.

End DiGraphFacts.

(** ** One duplication round of the Cross-Jump Reverter *)

Module DuplicationSpec.
Import DiGraph DiGraphFacts CrossJumpReverter.

Lemma Block_eqb_sym (a b : Block) : Block_eqb a b = Block_eqb b a.
Proof.
  destruct (Block_eqb b a) eqn:E.
  - apply Block_eqb_true_iff in E. subst. apply Block_eqb_refl.
  - apply Block_eqb_false_iff. apply Block_eqb_false_iff in E. congruence.
Qed.

Lemma adj_add_edge_node (g : t) (u v x : Block) (vs : list Block) :
  x <> u -> adj g x = Some vs -> adj (add_edge g u v) x = Some vs.
Proof.
  intros Hu Hx. rewrite adj_add_edge, !adj_add_node, Hx. simpl.
  apply Block_eqb_false_iff in Hu. rewrite Hu. reflexivity.
Qed.

(** The successors in the graph of one duplication, before the original
    is looked at. *)
Lemma duplicate_adj (g : t) (P Bk Cc cp : Block) (s : list Block) (x : Block) :
  adj g P = Some s -> has_node g cp = false -> has_node g Cc = true ->
  adj (add_edge (add_edge (map (del_succ P Bk) g) P cp) cp Cc) x =
  if Block_eqb x cp then Some [Cc]
  else if Block_eqb x P
       then Some (if mem cp (drop Bk s) then drop Bk s else drop Bk s ++ [cp])
       else adj g x.
Proof.
  intros HP Hcp HC.
  rewrite has_node_adj in Hcp, HC.
  destruct (adj g cp) eqn:Ecp; [discriminate |].
  destruct (adj g Cc) as [sc|] eqn:EC; [| discriminate].
  assert (HPcp : Block_eqb P cp = false).
  { apply Block_eqb_false_iff. intros E. subst. congruence. }
  assert (HCcp : Block_eqb Cc cp = false).
  { apply Block_eqb_false_iff. intros E. subst. congruence. }
  rewrite adj_add_edge, !adj_add_node, adj_add_edge, !adj_add_node, adj_del_succ.
  destruct (Block_eqb x cp) eqn:Excp.
  - apply Block_eqb_true_iff in Excp. subst x. rewrite Ecp. simpl.
    rewrite HPcp, Block_eqb_refl. simpl. rewrite (Block_eqb_sym cp P), HPcp.
    simpl. reflexivity.
  - destruct (Block_eqb x P) eqn:ExP.
    + apply Block_eqb_true_iff in ExP. subst x. rewrite HP. simpl.
      reflexivity.
    + destruct (adj g x) as [sx|] eqn:Ex; simpl.
      * reflexivity.
      * rewrite (Block_eqb_sym P x), ExP, (Block_eqb_sym cp x), Excp. simpl.
        destruct (Block_eqb Cc x) eqn:ECx; [| reflexivity].
        apply Block_eqb_true_iff in ECx. subst. congruence.
Qed.

Lemma duplicate_pred_list (g : t) (P Bk Cc cp : Block) :
  Bk <> cp -> Bk <> Cc ->
  pred_list (add_edge (add_edge (map (del_succ P Bk) g) P cp) cp Cc) Bk =
  filter (fun k => negb (Block_eqb k P)) (pred_list g Bk).
Proof.
  intros H1 H2.
  rewrite !pred_list_add_edge_other by assumption.
  apply pred_list_del_succ.
Qed.

(** One duplication: the edge to the original is replaced by an edge to
    the copy, the copy gets the original's successor, and the original
    goes when no other block points to it. *)
Lemma duplicate_spec (g : t) (k : Z) (P Bk Cc : Block) (s : list Block) :
  adj g P = Some s -> mem Bk s = true -> adj g Bk = Some [Cc] ->
  P <> Bk -> Bk <> Cc ->
  has_node g (set_idx Bk (Some k)) = false -> has_node g Cc = true ->
  duplicate g k P Bk =
  let g3 := add_edge (add_edge (map (del_succ P Bk) g) P (set_idx Bk (Some k)))
                     (set_idx Bk (Some k)) Cc in
  match filter (fun x => negb (Block_eqb x P)) (pred_list g Bk) with
  | [] => remove_node g3 Bk
  | _ => Ok g3
  end.
Proof.
  intros HP Hmem HB HPB HBC Hcp HC. unfold duplicate.
  set (cp := set_idx Bk (Some k)) in *.
  assert (HBcp : Bk <> cp).
  { intros E. rewrite <- E in Hcp. rewrite has_node_adj, HB in Hcp.
    discriminate. }
  unfold remove_edge, has_edge. rewrite HP, Hmem. simpl.
  assert (E2 : adj (add_edge (map (del_succ P Bk) g) P cp) Bk = Some [Cc]).
  { apply adj_add_edge_node; [congruence |].
    rewrite adj_del_succ, HB. simpl.
    assert (E : Block_eqb Bk P = false)
      by (apply Block_eqb_false_iff; congruence).
    rewrite E. reflexivity. }
  unfold successors at 1. rewrite E2. simpl.
  unfold in_degree_is_zero.
  rewrite duplicate_pred_list by assumption.
  rewrite has_node_adj.
  rewrite (duplicate_adj g P Bk Cc cp s Bk HP Hcp HC).
  assert (E3 : Block_eqb Bk cp = false) by (apply Block_eqb_false_iff; exact HBcp).
  assert (E4 : Block_eqb Bk P = false) by (apply Block_eqb_false_iff; congruence).
  rewrite E3, E4, HB. simpl.
  destruct (filter (fun x => negb (Block_eqb x P)) (pred_list g Bk));
    reflexivity.
Qed.

Lemma collect_app (gm : GotoManager) (g : t) (a b : list Block)
      (ra rb : list (Block * Block)) :
  collect gm g a = Ok ra -> collect gm g b = Ok rb ->
  collect gm g (a ++ b) = Ok (ra ++ rb).
Proof.
  revert ra. induction a as [|n a IH]; simpl; intros ra Ha Hb.
  - inversion Ha; subst. exact Hb.
  - destruct (goto_target_of gm g n) as [tn|] eqn:Et; [| discriminate].
    simpl in *. destruct (collect gm g a) as [ra'|] eqn:Ea; [| discriminate].
    simpl in *. rewrite (IH ra' eq_refl Hb). simpl.
    inversion Ha; subst. destruct tn; reflexivity.
Qed.

Lemma collect_none (gm : GotoManager) (g : t) (l : list Block) :
  (forall n, In n l -> goto_target_of gm g n = Ok None) ->
  collect gm g l = Ok [].
Proof.
  induction l as [|n l IH]; simpl; intros H; [reflexivity |].
  rewrite (H n (or_introl eq_refl)). simpl. rewrite IH; [reflexivity |].
  intros m Hm. apply H. right. exact Hm.
Qed.

Lemma collect_one (gm : GotoManager) (g : t) (P Bk Cc : Block) (goto : Goto)
      (s : list Block) :
  gotos_in_block gm P = [goto] -> adj g P = Some s ->
  find (fun x => addr x =? target_addr goto) s = Some Bk ->
  adj g Bk = Some [Cc] ->
  goto_target_of gm g P = Ok (Some Bk).
Proof.
  intros Hg HP Hf HB. unfold goto_target_of. rewrite Hg.
  unfold successors. rewrite HP. simpl. rewrite Hf.
  unfold out_degree, successors. rewrite HB. simpl. reflexivity.
Qed.








(** Why the indices drawn must not be taken: the counter starts at the
    caller's [node_idx_start] and is not checked against the graph. When
    the graph already holds a block with the address of B and the index
    0, the copy made for P is that block: no new block is made for P,
    and its "copy" keeps its old predecessor E and its old successor,
    block 6, beside C. *)
Lemma round_with_an_index_already_taken :
  has_node Scenario.stale_copy (set_idx Scenario.B (Some 0)) = true
  /\ pred_list Scenario.stale_copy Scenario.B = [Scenario.P; Scenario.Q]
  /\ successors Scenario.stale_copy Scenario.B = Ok [Scenario.C]
  /\ collect Scenario.two_gotos Scenario.stale_copy
             (nodes Scenario.stale_copy)
     = Ok [(Scenario.P, Scenario.B); (Scenario.Q, Scenario.B)]
  /\ exists G',
       _analyze_core Scenario.two_gotos Scenario.stale_copy 0
       = Ok (G', 2, true)
       /\ successors G' Scenario.P = Ok [set_idx Scenario.B (Some 0)]
       /\ successors G' (set_idx Scenario.B (Some 0))
          = Ok [Scenario.blk 6; Scenario.C]
       /\ pred_list G' (set_idx Scenario.B (Some 0))
          = [Scenario.P; Scenario.E].
Proof.
  repeat (split; [vm_compute; reflexivity |]).
  eexists. split; [vm_compute; reflexivity |].
  repeat split; vm_compute; reflexivity.
Qed.

(** Why no other block may be up for an update in the round of
    [two_gotos_into_one_block]: when the copied block B was itself
    collected, it is gone by the time its own goto edge is to be removed,
    and [remove_edge] raises. *)
Lemma round_raises_when_the_copied_block_is_collected :
  collect Scenario.chained_gotos Scenario.goto_chain
          (nodes Scenario.goto_chain)
  = Ok [(Scenario.P, Scenario.B); (Scenario.B, Scenario.C)]
  /\ _analyze_core Scenario.chained_gotos Scenario.goto_chain 0
     = Raise NetworkXError.
Proof. split; vm_compute; reflexivity. Qed.

End DuplicationSpec.

(** ** The recognizer *)

Module RecognizerSpec.
Import LoweredSwitchSimplifier Invariants.

Lemma zdict_set_In {V : Type} (d : list (Z * V)) (k : Z) (v : V) (a : Z) (c : V) :
  In (a, c) (zdict_set d k v) -> (a = k /\ c = v) \/ In (a, c) d.
Proof.
  induction d as [|[k' v'] d IH]; simpl.
  - intros [H | []]. inversion H. left. auto.
  - destruct (k' =? k) eqn:E; simpl.
    + intros [H | H]; [| right; right; exact H].
      inversion H; subst. apply Z.eqb_eq in E. left. auto.
    + intros [H | H]; [right; left; exact H |].
      destruct (IH H) as [H' | H']; [left; exact H' | right; right; exact H'].
Qed.

Lemma Case_eqb_value (c c' : Case) :
  value c = DefaultValue -> is_default c' = false -> Case_eqb c c' = false.
Proof.
  intros H1 H2. unfold Case_eqb, is_default in *. rewrite H1.
  destruct (value c'); [| discriminate]. simpl.
  rewrite !andb_false_r. reflexivity.
Qed.

Lemma Case_eqb_target (c c' : Case) :
  target c <> target c' -> Case_eqb c c' = false.
Proof.
  intros H. unfold Case_eqb. apply Z.eqb_neq in H. rewrite H.
  rewrite andb_false_r. reflexivity.
Qed.

Section Walk.

Variable _get_blocks : Z -> list Block.
Variable vc : VarComps.
Variable graph : DiGraph.t.
Variable head : Block.

Lemma walk_inv_post (w : walk) : walk_inv _get_blocks w -> walk_post w.
Proof.
  intros [Hc Hd] a c Hin. destruct (Hd a c Hin) as (H1 & H2 & _).
  repeat split; try assumption.
  intros c' Hc'. apply Case_eqb_value; auto.
Qed.

Lemma walk_inv_add_case (w : walk) (c : Case) :
  walk_inv _get_blocks w -> is_default c = false ->
  walk_inv _get_blocks (add_case w c).
Proof.
  intros [Hc Hd] H. split; simpl.
  - intros c' Hin. apply in_app_or in Hin. destruct Hin as [Hin | [E | []]].
    + apply Hc; exact Hin.
    + subst; exact H.
  - exact Hd.
Qed.

Lemma eq_tail_inv (comp : Block) (min_ max_ variable_hash : Z) (expr : Expr)
      (target : Z) (w : walk) (r : ctl) :
  walk_inv _get_blocks w ->
  eq_tail _get_blocks vc graph head comp min_ max_ variable_hash expr target w
    = Ok r ->
  match r with
  | Continue w' => walk_inv _get_blocks w'
  | Break w' => walk_post w'
  end.
Proof.
  intros Hinv. unfold eq_tail.
  destruct (if Block_eqb comp head then Ok 0
            else DiGraph.in_degree_item graph comp) as [d|e]; simpl;
    [| discriminate].
  destruct (d >? 1).
  { intros H; inversion H; subst. apply walk_inv_post; exact Hinv. }
  destruct (other_successors graph comp) as [succs|e]; simpl; [| discriminate].
  destruct (zmem target (map addr succs)).
  2: { intros H; inversion H; subst. exact Hinv. }
  destruct (find (fun a => negb (a =? target)) (map addr succs)) as [na|].
  2: { intros H; inversion H; subst. apply walk_inv_post; exact Hinv. }
  destruct (_get_blocks na) as [|b1 [|b2 bs]] eqn:Hgb.
  - discriminate.
  - destruct (dict_has vc b1).
    { intros H; inversion H; subst. exact Hinv. }
    destruct (zdict_has (default_case_candidates w) na).
    { intros H; inversion H; subst. exact Hinv. }
    intros H; inversion H; subst. destruct Hinv as [Hc Hd].
    split; simpl; [exact Hc |].
    intros a c Hin. apply zdict_set_In in Hin.
    destruct Hin as [[Ha Hcc] | Hin]; [| apply Hd; exact Hin].
    subst. simpl. rewrite Hgb. auto.
  - destruct (dict_has vc b1).
    { intros H; inversion H; subst. apply walk_inv_post; exact Hinv. }
    intros H; inversion H; subst. destruct Hinv as [Hc Hd].
    intros a c Hin. simpl in Hin. destruct (Hd a c Hin) as (H1 & H2 & H3).
    repeat split; try assumption.
    intros c' Hc'. simpl in Hc'. apply in_app_or in Hc'.
    destruct Hc' as [Hc' | [E | []]].
    + apply Case_eqb_value; auto.
    + subst c'. apply Case_eqb_target. simpl. rewrite H2.
      intros E. rewrite E, Hgb in H3. simpl in H3. lia.
Qed.

Lemma walk_step_inv (w : walk) (comp : Block) (min_ max_ : Z) (r : ctl) :
  walk_inv _get_blocks w ->
  walk_step _get_blocks vc graph head w comp min_ max_ = Ok r ->
  match r with
  | Continue w' => walk_inv _get_blocks w'
  | Break w' => walk_post w'
  end.
Proof.
  intros Hinv. unfold walk_step.
  destruct (dict_get vc comp) as [[ct [[[[[vh op] e] v] tg] nx]]|];
    [| discriminate].
  destruct (String.eqb op "eq").
  { destruct (same_variable (last_varhash_of (cases w)) vh).
    - destruct (tg =? addr comp).
      + intros H; inversion H; subst. apply walk_inv_post; exact Hinv.
      + apply eq_tail_inv.
        apply (walk_inv_add_case w); [exact Hinv | reflexivity].
    - destruct (last_comp w) as [lc|], (last_varhash_of (cases w)) as [lh|];
        try (intros H; inversion H; subst; apply walk_inv_post; exact Hinv).
      destruct (zdict_has (default_case_candidates w) (addr comp)).
      + intros H; inversion H; subst. apply walk_inv_post; exact Hinv.
      + intros H; inversion H; subst. destruct Hinv as [Hc Hd].
        intros a c Hin. simpl in Hin. apply zdict_set_In in Hin.
        destruct Hin as [[Ha Hcc] | Hin].
        * subst. simpl. repeat split.
          intros c' Hc'. apply Case_eqb_value; auto.
        * destruct (Hd a c Hin) as (H1 & H2 & _). repeat split; auto.
          intros c' Hc'. apply Case_eqb_value; auto. }
  destruct (String.eqb op "gt").
  2: { intros H; inversion H; subst. exact Hinv. }
  destruct (same_variable (last_varhash_of (cases w)) vh).
  2: { intros H; inversion H; subst. apply walk_inv_post; exact Hinv. }
  destruct (other_successors graph comp) as [succs|e0]; simpl; [| discriminate].
  match goal with |- context [if ?b then _ else _] => destruct b end.
  2: { intros H; inversion H; subst. apply walk_inv_post; exact Hinv. }
  destruct (find (fun s => addr s =? tg) succs) as [gc|]; [| discriminate].
  destruct (find (fun s => addr s =? nx) succs) as [lc|]; [| discriminate].
  destruct (dict_has vc gc && dict_has vc lc).
  - intros H; inversion H; subst. exact Hinv.
  - intros H; inversion H; subst. apply walk_inv_post; exact Hinv.
Qed.

Lemma walk_loop_post (fuel : nat) :
  forall (w w' : walk),
    walk_inv _get_blocks w ->
    walk_loop _get_blocks fuel vc graph head w = Ok w' ->
    walk_post w'.
Proof.
  induction fuel as [|fuel IH]; intros w w' Hinv; simpl.
  - destruct (stack w) as [|[[comp mn] mx] rest]; [| discriminate].
    intros H; inversion H; subst. apply walk_inv_post; exact Hinv.
  - destruct (stack w) as [|[[comp mn] mx] rest].
    { intros H; inversion H; subst. apply walk_inv_post; exact Hinv. }
    match goal with
    | |- context [walk_step _ _ _ _ ?w0 _ _ _] =>
        pose proof (walk_step_inv w0 comp mn mx) as Hs;
        destruct (walk_step _get_blocks vc graph head w0 comp mn mx)
          as [[w1|w1]|e]; simpl; try discriminate
    end.
    + apply IH. apply (Hs (Continue w1)); [exact Hinv | reflexivity].
    + intros H; inversion H; subst.
      apply (Hs (Break w')); [exact Hinv | reflexivity].
Qed.


Lemma accept_chain_shape (w : walk) (cs : list Case) (extra : list Block) :
  accept_chain w = Some (cs, extra) ->
  cases w <> [] /\ (length (default_case_candidates w) <= 1)%nat /\
  cs = cases w ++ map snd (default_case_candidates w).
Proof.
  unfold accept_chain. destruct (cases w) as [|c0 r] eqn:Hc; [discriminate |].
  destruct (default_case_candidates w) as [|[a c] [|x y]] eqn:Hd; simpl;
    intros H; inversion H; subst; clear H.
  - split; [discriminate |]. split; [lia |]. rewrite app_nil_r. reflexivity.
  - split; [discriminate |]. split; [lia |]. reflexivity.
Qed.

Lemma merge_chain_In (existing : list Chain) (cs : list Case)
      (extra : list Block) (cs' : list Case) (red' : list Block) :
  In (cs', red') (merge_chain existing cs extra) ->
  cs' = cs \/ exists red0, In (cs', red0) existing.
Proof.
  induction existing as [|[ec er] r IH]; simpl.
  - intros [H | []]. inversion H. left; reflexivity.
  - destruct (cases_issubset ec cs).
    { intros [H | H].
      - inversion H. left; reflexivity.
      - right. exists red'. right. exact H. }
    destruct (cases_issubset cs ec).
    { intros H. right. exists red'. exact H. }
    intros [H | H].
    + right. exists red'. left. exact H.
    + destruct (IH H) as [E | [red0 H0]]; [left; exact E |].
      right. exists red0. right. exact H0.
Qed.

Lemma zdict_get_In {V : Type} (d : list (Z * V)) (k : Z) (v : V) :
  zdict_get d k = Some v -> In (k, v) d.
Proof.
  induction d as [|[k' v'] d IH]; simpl; [discriminate |].
  destruct (k' =? k) eqn:E.
  - intros H; inversion H; subst. apply Z.eqb_eq in E. subst. left; reflexivity.
  - intros H. right. apply IH. exact H.
Qed.

Lemma process_head_assembled (fuel : nat) (d d' : CaseLists)
      (used used' : list Block) (h : Block) :
  (forall v chains cs red, In (v, chains) d -> In (cs, red) chains ->
                           assembled _get_blocks fuel vc graph cs) ->
  process_head _get_blocks fuel vc graph (d, used) h = Ok (d', used') ->
  forall v chains cs red, In (v, chains) d' -> In (cs, red) chains ->
                          assembled _get_blocks fuel vc graph cs.
Proof.
  intros Hd. unfold process_head.
  destruct (mem h used).
  { intros H; inversion H; subst. exact Hd. }
  destruct (walk_loop _get_blocks fuel vc graph h (init_walk h used))
    as [w|e] eqn:Hw; simpl; [| discriminate].
  destruct (accept_chain w) as [[cs0 extra]|] eqn:Ha.
  2: { intros H; inversion H; subst. exact Hd. }
  destruct (last_varhash_of cs0) as [v0|].
  2: { intros H; inversion H; subst. exact Hd. }
  intros H; inversion H; subst; clear H.
  intros v chains cs red Hin Hc.
  apply zdict_set_In in Hin. destruct Hin as [[Hv Hch] | Hin].
  - subst. apply merge_chain_In in Hc. destruct Hc as [E | [red0 H0]].
    + subst cs. exists h, used, w.
      destruct (accept_chain_shape w cs0 extra Ha) as (H1 & H2 & H3).
      auto.
    + unfold caselists_of in H0.
      destruct (zdict_get d v0) as [l|] eqn:Hg; [| destruct H0].
      apply zdict_get_In in Hg. exact (Hd v0 l cs red0 Hg H0).
  - exact (Hd v chains cs red Hin Hc).
Qed.

Lemma heads_loop_assembled (fuel : nat) (heads : list Block) :
  forall (d d' : CaseLists) (used used' : list Block),
    (forall v chains cs red, In (v, chains) d -> In (cs, red) chains ->
                             assembled _get_blocks fuel vc graph cs) ->
    heads_loop _get_blocks fuel vc graph (d, used) heads = Ok (d', used') ->
    forall v chains cs red, In (v, chains) d' -> In (cs, red) chains ->
                            assembled _get_blocks fuel vc graph cs.
Proof.
  induction heads as [|h r IH]; intros d d' used used' Hd.
  - simpl. intros H; inversion H; subst. exact Hd.
  - change (heads_loop _get_blocks fuel vc graph (d, used) (h :: r))
      with (bind (process_head _get_blocks fuel vc graph (d, used) h)
                 (fun acc' => heads_loop _get_blocks fuel vc graph acc' r)).
    destruct (process_head _get_blocks fuel vc graph (d, used) h)
      as [[d1 used1]|e] eqn:Hp; [| discriminate].
    unfold bind.
    apply IH. exact (process_head_assembled fuel d d1 used used1 h Hd Hp).
Qed.

Lemma filter_chains_In (l l' : list Chain) (ch : Chain) :
  filter_chains graph l = Ok l' -> In ch l' ->
  In ch l /\ keep_chain graph ch = Ok true.
Proof.
  revert l'. induction l as [|c r IH]; simpl; intros l'.
  - intros H; inversion H; subst. intros [].
  - destruct (keep_chain graph c) as [k|e] eqn:Hk; simpl; [| discriminate].
    destruct (filter_chains graph r) as [r'|e]; simpl; [| discriminate].
    intros H; inversion H; subst; clear H.
    destruct k.
    + intros [E | Hin].
      * subst. split; [left; reflexivity | exact Hk].
      * destruct (IH r' eq_refl Hin). split; [right |]; assumption.
    + intros Hin. destruct (IH r' eq_refl Hin). split; [right |]; assumption.
Qed.

Lemma final_filter_In (d res : CaseLists) (v : Z) (chains : list Chain) :
  final_filter graph d = Ok res -> In (v, chains) res ->
  exists chains0, In (v, chains0) d /\ filter_chains graph chains0 = Ok chains.
Proof.
  revert res. induction d as [|[v0 l0] r IH]; simpl; intros res.
  - intros H; inversion H; subst. intros [].
  - destruct (filter_chains graph l0) as [l|e] eqn:Hf; simpl; [| discriminate].
    destruct (final_filter graph r) as [r'|e]; simpl; [| discriminate].
    intros H; inversion H; subst; clear H.
    intros [E | Hin].
    + inversion E; subst. exists l0. split; [left; reflexivity | exact Hf].
    + destruct (IH r' eq_refl Hin) as (c0 & H1 & H2).
      exists c0. split; [right |]; assumption.
Qed.

Lemma keep_chain_two (ch : Chain) :
  keep_chain graph ch = Ok true -> (2 <= nondefault_count (fst ch))%nat.
Proof.
  unfold keep_chain.
  destruct (nondefault_count (fst ch) <? 2)%nat eqn:E; [discriminate |].
  intros _. apply Nat.ltb_ge in E. exact E.
Qed.

End Walk.

Lemma Case_eqb_refl (c : Case) : Case_eqb c c = true.
Proof. apply CaseSpec.Case_eqb_fields. repeat split. Qed.

Lemma filter_none {A : Type} (f : A -> bool) (l : list A) :
  (forall x, In x l -> f x = false) -> filter f l = [].
Proof.
  induction l as [|x l IH]; simpl; intros H; [reflexivity |].
  rewrite (H x (or_introl eq_refl)). apply IH. intros y Hy. apply H.
  right; exact Hy.
Qed.

(** C6: every chain in the recognizer's result has at least two cases
    whose value is not "default", and its case list is the case list of
    one walk that produced at least one case and at most one default-case
    candidate address, followed by the candidates; the candidate, if
    there is one, is a case with value "default" to the address it was
    registered under, and exactly one case of the chain compares equal
    to it. *)
Theorem emitted_chain_shape
        (StableVarExprHasher : Expr -> Z)
        (quasi_topological_sort_nodes : DiGraph.t -> list Block)
        (_get_blocks : Z -> list Block)
        (fuel : nat) (graph : DiGraph.t) (res : CaseLists)
        (v : Z) (chains : list Chain) (cs : list Case) (red : list Block) :
  _find_cascading_switch_variable_comparisons
    StableVarExprHasher quasi_topological_sort_nodes _get_blocks fuel graph
    = Ok res ->
  In (v, chains) res ->
  In (cs, red) chains ->
  (2 <= nondefault_count cs)%nat /\
  exists head used w,
    walk_loop _get_blocks fuel
              (build_variable_comparisons
                 StableVarExprHasher (quasi_topological_sort_nodes graph))
              graph head (init_walk head used) = Ok w /\
    cases w <> [] /\
    (length (default_case_candidates w) <= 1)%nat /\
    cs = cases w ++ map snd (default_case_candidates w) /\
    forall a c, In (a, c) (default_case_candidates w) ->
      value c = DefaultValue /\ target c = a /\
      length (filter (Case_eqb c) cs) = 1%nat.
Proof.
  unfold _find_cascading_switch_variable_comparisons.
  set (vc := build_variable_comparisons
               StableVarExprHasher (quasi_topological_sort_nodes graph)).
  destruct (heads_loop _get_blocks fuel vc graph ([], []) (map fst vc))
    as [[d used]|e] eqn:Hh; simpl; [| discriminate].
  intros Hf Hv Hc.
  destruct (final_filter_In graph d res v chains Hf Hv) as (chains0 & Hd & Hfc).
  destruct (filter_chains_In graph chains0 chains (cs, red) Hfc Hc)
    as [Hin Hk].
  split; [exact (keep_chain_two graph (cs, red) Hk) |].
  assert (Ha : assembled _get_blocks fuel vc graph cs).
  { apply (heads_loop_assembled _get_blocks vc graph fuel (map fst vc)
             [] d [] used) with (v := v) (chains := chains0) (red := red);
      try assumption.
    intros v0 ch0 cs0 red0 []. }
  destruct Ha as (head & used0 & w & Hw & Hne & Hlen & Hcs).
  exists head, used0, w. repeat split; try assumption.
  - assert (Hpost : walk_post w).
    { apply (walk_loop_post _get_blocks vc graph head fuel
               (init_walk head used0) w); [| exact Hw].
      split; simpl; [intros c0 [] | intros a0 c0 []]. }
    destruct (Hpost a c H) as (H1 & _). exact H1.
  - assert (Hpost : walk_post w).
    { apply (walk_loop_post _get_blocks vc graph head fuel
               (init_walk head used0) w); [| exact Hw].
      split; simpl; [intros c0 [] | intros a0 c0 []]. }
    destruct (Hpost a c H) as (_ & H2 & _). exact H2.
  - assert (Hpost : walk_post w).
    { apply (walk_loop_post _get_blocks vc graph head fuel
               (init_walk head used0) w); [| exact Hw].
      split; simpl; [intros c0 [] | intros a0 c0 []]. }
    destruct (Hpost a c H) as (_ & _ & H3).
    rewrite Hcs.
    destruct (default_case_candidates w) as [|[a1 c1] [|x y]]; simpl in *.
    + destruct H.
    + destruct H as [E | []]. inversion E; subst a1 c1.
      rewrite filter_app. rewrite (filter_none _ _ H3). simpl.
      rewrite Case_eqb_refl. reflexivity.
    + lia.
Qed.


(** The four-way ladder meets the hypotheses of [emitted_chain_shape]. *)
Lemma emitted_chain_shape_witness :
  (2 <= nondefault_count Scenario.ladder_cases)%nat /\
  exists head used w,
    walk_loop (Scenario.blocks_of Scenario.ladder) 10
              (build_variable_comparisons
                 Scenario.hasher (Scenario.node_order Scenario.ladder))
              Scenario.ladder head (init_walk head used) = Ok w /\
    cases w <> [] /\
    (length (default_case_candidates w) <= 1)%nat /\
    Scenario.ladder_cases = cases w ++ map snd (default_case_candidates w) /\
    forall a c, In (a, c) (default_case_candidates w) ->
      value c = DefaultValue /\ target c = a /\
      length (filter (Case_eqb c) Scenario.ladder_cases) = 1%nat.
Proof.
  apply (emitted_chain_shape
           Scenario.hasher Scenario.node_order
           (Scenario.blocks_of Scenario.ladder) 10 Scenario.ladder
           [(0, [(Scenario.ladder_cases, [])])] 0
           [(Scenario.ladder_cases, [])] Scenario.ladder_cases []).
  - vm_compute. reflexivity.
  - left. reflexivity.
  - left. reflexivity.
Defined.

(** Next to the candidate a chain may carry a default case of its own:
    the walk appends one directly when the fallthrough address resolves
    to several blocks. Here the arm through block 3 does so (address 15)
    and the arm through block 2 registers the candidate (address 14). *)
Lemma chain_with_a_direct_default_case :
  _find_cascading_switch_variable_comparisons
    Scenario.hasher Scenario.node_order Scenario.range_split_blocks
    10 Scenario.range_split
  = Ok [(0, [(Scenario.range_split_cases, [Scenario.R1])])]
  /\ length (filter is_default Scenario.range_split_cases) = 2%nat.
Proof. split; vm_compute; reflexivity. Qed.

End RecognizerSpec.

(** ** The blocks shared between dispatch heads *)

Module SharedNodeSpec.
Import DiGraph DiGraphFacts LoweredSwitchSimplifier SplitDefs.
Import DuplicationSpec.





















Lemma shared_case_chains_applied :
  exists chains,
    _find_cascading_switch_variable_comparisons
      Scenario.reg_hasher Scenario.node_order
      (Scenario.blocks_of Scenario.shared_case) 10 Scenario.shared_case
    = Ok chains
    /\ apply_chains 64 (DiGraph.copy Scenario.shared_case) []
                    (flat_map snd chains)
       = Ok (Some (Scenario.shared_case_applied,
                   Scenario.shared_case_recorded)).
Proof.
  eexists. split; [vm_compute; reflexivity |]. vm_compute. reflexivity.
Qed.



(** The successors of the head's own block are not recorded: here block
    30 is the target of the first case of ladder A and of the second
    case of ladder B; it is recorded for the head of B only, is not
    split, and stays a successor of both heads in the output. *)
Lemma head_edge_not_recorded :
  exists chains g recorded out,
    _find_cascading_switch_variable_comparisons
      Scenario.reg_hasher Scenario.node_order
      (Scenario.blocks_of Scenario.shared_by_head) 10 Scenario.shared_by_head
    = Ok chains
    /\ apply_chains 64 (DiGraph.copy Scenario.shared_by_head) []
                    (flat_map snd chains) = Ok (Some (g, recorded))
    /\ dict_get recorded (Scenario.blk 30) = Some [Scenario.shared_by_head_headB]
    /\ rewrite 64 Scenario.shared_by_head chains = Ok (Some out)
    /\ has_node out (Scenario.blk 30) = true
    /\ has_edge out Scenario.shared_by_head_headA (Scenario.blk 30) = true
    /\ has_edge out Scenario.shared_by_head_headB (Scenario.blk 30) = true
    /\ Scenario.shared_by_head_headA <> Scenario.shared_by_head_headB.
Proof.
  do 4 eexists.
  split; [vm_compute; reflexivity |].
  split; [vm_compute; reflexivity |].
  split; [vm_compute; reflexivity |].
  split; [vm_compute; reflexivity |].
  repeat split; try (vm_compute; reflexivity).
  discriminate.
Qed.

End SharedNodeSpec.

(** ** Collapse and restore *)

Module RoundTripSpec.
Import LoweredSwitchSimplifier Reach.

(** On the four-way ladder the round trip holds: the collapsed ladder is
    restored to head -> comparison blocks -> targets, the shortcut edges
    of the head and the placeholder are gone, and every case target
    reachable from the first comparison block before the collapse is
    reachable from the head afterwards. *)
Lemma ladder_round_trip :
  rewrite 64 Scenario.ladder [(0, [(Scenario.ladder_cases, [])])]
    = Ok (Some Scenario.ladder_collapsed)
  /\ restore_graph 10 Scenario.ladder_head Scenario.ladder_case_addrs
                   Scenario.ladder_collapsed Scenario.ladder_collapsed
     = Ok (Scenario.ladder_head_restored, Scenario.ladder_restored,
           Scenario.ladder_restored)
  /\ forall a, In a [11; 12; 13; 14] ->
       reachable_addr Scenario.ladder Scenario.N1 a = true
       /\ reachable_addr Scenario.ladder_restored
                         Scenario.ladder_head_restored a = true.
Proof.
  split; [vm_compute; reflexivity |].
  split; [vm_compute; reflexivity |].
  intros a Ha. simpl in Ha.
  repeat (destruct Ha as [Ha | Ha]; [subst a; split; vm_compute; reflexivity |]).
  destruct Ha.
Qed.

(** C9, the code at the failing input: the recognizer emits the chain of
    the ladder whose first case jumps to its own third comparison block
    (the case is appended before the in-degree test) and the rewriter
    collapses it, removing that block; the address 3, a case target
    reachable before the collapse, has no block left, and Restore raises
    StopIteration when it looks the target up. *)
Theorem restore_fails_when_a_case_jumps_into_the_chain :
  _find_cascading_switch_variable_comparisons
    Scenario.hasher Scenario.node_order
    (Scenario.blocks_of Scenario.jump_into_chain) 10 Scenario.jump_into_chain
    = Ok [(0, [(Scenario.jump_cases, [])])]
  /\ rewrite 64 Scenario.jump_into_chain [(0, [(Scenario.jump_cases, [])])]
     = Ok (Some Scenario.jump_collapsed)
  /\ reachable_addr Scenario.jump_into_chain Scenario.J1 3 = true
  /\ existsb (fun b => addr b =? 3) (DiGraph.nodes Scenario.jump_collapsed)
     = false
  /\ restore_graph 10 Scenario.jump_head Scenario.jump_case_addrs
                   Scenario.jump_collapsed Scenario.jump_collapsed
     = Raise StopIteration.
Proof. repeat split; vm_compute; reflexivity. Qed.

End RoundTripSpec.

(* ================================================================== *)
(** ** The three comparison shapes *)

Module ShapeSpec.
Import LoweredSwitchSimplifier Semantics ShapeDefs.

Lemma first_nonlabel_index_spec (stmts : list Stmt) (i : nat) :
  first_nonlabel_index stmts = Some i ->
  (i < length stmts)%nat /\
  nonlabel_count (firstn i stmts) = 0%nat /\
  exists s, nth_error stmts i = Some s /\ is_Label s = false.
Proof.
  revert i. induction stmts as [|s r IH]; simpl; intros i; [discriminate |].
  destruct (is_Label s) eqn:E.
  - destruct (first_nonlabel_index r) as [j|]; simpl; [| discriminate].
    intros H; inversion H; subst i. destruct (IH j eq_refl) as (H1 & H2 & H3).
    split; [lia |]. split; [| exact H3].
    unfold nonlabel_count in *. simpl. rewrite E. simpl. exact H2.
  - intros H; inversion H; subst i. split; [lia |]. split; [reflexivity |].
    exists s. split; [reflexivity | exact E].
Qed.

Lemma first_nonlabel_index_none (stmts : list Stmt) :
  first_nonlabel_index stmts = None -> nonlabel_count stmts = 0%nat.
Proof.
  induction stmts as [|s r IH]; simpl; [reflexivity |].
  unfold nonlabel_count in *. simpl.
  destruct (is_Label s); simpl; [| discriminate].
  destruct (first_nonlabel_index r); simpl; [discriminate |].
  intros _. apply IH. reflexivity.
Qed.

Lemma nonlabel_count_app (a b : list Stmt) :
  nonlabel_count (a ++ b) = (nonlabel_count a + nonlabel_count b)%nat.
Proof. unfold nonlabel_count. rewrite filter_app, length_app. reflexivity. Qed.

(** When the first non-label statement is the last statement, it is the
    only one. *)
Lemma first_nonlabel_is_last_count (stmts : list Stmt) :
  first_nonlabel_is_last stmts = true -> nonlabel_count stmts = 1%nat.
Proof.
  unfold first_nonlabel_is_last.
  destruct (first_nonlabel_index stmts) as [i|] eqn:E; [| discriminate].
  intros H. apply Nat.eqb_eq in H.
  destruct (first_nonlabel_index_spec stmts i E) as (H1 & H2 & s & H3 & H4).
  rewrite <- (firstn_skipn i stmts), nonlabel_count_app, H2. simpl.
  assert (Hs : skipn i stmts = [s]).
  { apply nth_error_split in H3. destruct H3 as (l1 & l2 & Hl & Hlen).
    subst stmts. rewrite length_app in H. simpl in H.
    assert (l2 = []) by (destruct l2; [reflexivity | simpl in H; lia]).
    subst l2. rewrite <- Hlen. rewrite skipn_app, skipn_all, Nat.sub_diag.
    reflexivity. }
  rewrite Hs. unfold nonlabel_count. simpl. rewrite H4. reflexivity.
Qed.

(** When the last statement is not a label and is not the first
    non-label statement, an earlier statement is not a label either. *)
Lemma not_first_nonlabel_count (stmts : list Stmt) (stmt : Stmt) (r : list Stmt) :
  rev stmts = stmt :: r -> is_Label stmt = false ->
  first_nonlabel_is_last stmts = false ->
  (2 <= nonlabel_count stmts)%nat.
Proof.
  intros Hrev Hs Hf.
  assert (Hst : stmts = rev r ++ [stmt]).
  { rewrite <- (rev_involutive stmts), Hrev. reflexivity. }
  unfold first_nonlabel_is_last in Hf.
  destruct (first_nonlabel_index stmts) as [i|] eqn:E.
  - apply Nat.eqb_neq in Hf.
    destruct (first_nonlabel_index_spec stmts i E) as (H1 & H2 & s & H3 & H4).
    assert (Hi : (i < length (rev r))%nat).
    { rewrite Hst, length_app in H1. simpl in H1.
      rewrite Hst, length_app in Hf. simpl in Hf. lia. }
    rewrite Hst, nonlabel_count_app.
    assert (H5 : (1 <= nonlabel_count (rev r))%nat).
    { rewrite Hst in H3. rewrite nth_error_app1 in H3 by exact Hi.
      apply nth_error_split in H3. destruct H3 as (l1 & l2 & Hl & _).
      rewrite Hl, nonlabel_count_app. unfold nonlabel_count at 2. simpl.
      rewrite H4. simpl. lia. }
    unfold nonlabel_count at 2. simpl. rewrite Hs. simpl. lia.
  - apply first_nonlabel_index_none in E.
    rewrite Hst, nonlabel_count_app in E.
    unfold nonlabel_count at 2 in E. simpl in E. rewrite Hs in E. simpl in E.
    lia.
Qed.

Lemma comparison_stmt_not_label (stmt : Stmt) x :
  comparison_stmt stmt = Some x -> is_Label stmt = false.
Proof. destruct stmt; simpl; try discriminate. reflexivity. Qed.

Lemma eq_comparison_inv (hasher : Expr -> Z) (stmt : Stmt) (r : Comparison) :
  eq_comparison hasher stmt = Some r ->
  exists op e c t f,
    comparison_stmt stmt = Some (op, e, c, t, f) /\
    ((op = "CmpEQ"%string /\ r = (hasher e, "eq"%string, e, c, t, f)) \/
     (op = "CmpNE"%string /\ r = (hasher e, "eq"%string, e, c, f, t))).
Proof.
  unfold eq_comparison.
  destruct (comparison_stmt stmt) as [[[[[op e] c] t] f]|] eqn:Hcs;
    [| discriminate].
  destruct (String.eqb op "CmpEQ") eqn:E1.
  { intros H; inversion H; subst. apply String.eqb_eq in E1.
    exists op, e, c, t, f. split; [reflexivity |]. left. auto. }
  destruct (String.eqb op "CmpNE") eqn:E2; [| discriminate].
  intros H; inversion H; subst. apply String.eqb_eq in E2.
  exists op, e, c, t, f. split; [reflexivity |]. right. auto.
Qed.

Lemma type_c_inv (hasher : Expr -> Z) (node : Block) (r : Comparison) :
  _find_switch_variable_comparison_type_c hasher node = Some r ->
  exists stmt rest op e c t f,
    rev (statements node) = stmt :: rest /\
    first_nonlabel_is_last (statements node) = true /\
    comparison_stmt stmt = Some (op, e, c, t, f) /\
    t <> f /\
    ((op = "CmpGT"%string /\ r = (hasher e, "gt"%string, e, c, t, f)) \/
     (op = "CmpGE"%string /\ r = (hasher e, "gt"%string, e, c + 1, t, f)) \/
     (op = "CmpLT"%string /\ r = (hasher e, "gt"%string, e, c - 1, f, t)) \/
     (op = "CmpLE"%string /\ r = (hasher e, "gt"%string, e, c, f, t))).
Proof.
  unfold _find_switch_variable_comparison_type_c.
  destruct (rev (statements node)) as [|stmt rest] eqn:Hrev; [discriminate |].
  destruct (first_nonlabel_is_last (statements node)) eqn:Hf; [| discriminate].
  destruct (comparison_stmt stmt) as [[[[[op e] c] t] f]|] eqn:Hcs;
    [| discriminate].
  destruct (t =? f) eqn:Etf; [discriminate |]. apply Z.eqb_neq in Etf.
  intros H. exists stmt, rest, op, e, c, t, f.
  split; [reflexivity |]. split; [reflexivity |]. split; [exact Hcs |].
  split; [exact Etf |].
  revert H.
  destruct (String.eqb op "CmpGT") eqn:E1.
  { apply String.eqb_eq in E1. intros H; inversion H. left. auto. }
  destruct (String.eqb op "CmpGE") eqn:E2.
  { apply String.eqb_eq in E2. intros H; inversion H. right; left. auto. }
  destruct (String.eqb op "CmpLT") eqn:E3.
  { apply String.eqb_eq in E3. intros H; inversion H. right; right; left.
    auto. }
  destruct (String.eqb op "CmpLE") eqn:E4; [| discriminate].
  apply String.eqb_eq in E4. intros H; inversion H. right; right; right. auto.
Qed.

Lemma comparison_stmt_inv (stmt : Stmt) (op : string) (e : Expr) (c t f : Z) :
  comparison_stmt stmt = Some (op, e, c, t, f) ->
  exists bits bt bf,
    stmt = ConditionalJump (BinaryOp op e (Const c bits))
                           (Const t bt) (Const f bf).
Proof.
  destruct stmt; simpl; try discriminate.
  destruct condition; try discriminate.
  destruct condition2; try discriminate.
  destruct true_target; try discriminate.
  destruct false_target; try discriminate.
  intros H; inversion H; subst. eauto.
Qed.

(** X1: the tuple that the type-a and the type-b classifier return
    describes the jump that ends the block. The last statement is a
    conditional jump on [cmp(e, value)] with constant targets, where [e],
    the first operand of the condition, is the tuple's expression and
    [value], the constant second operand, is the tuple's value; the
    tuple's hash is the hash of [e] and its tag is "eq". For [CmpEQ] the
    tuple's target and next address are the true and the false target of
    the jump, for [CmpNE] they are swapped, so that for every value [x] of
    [e] the jump goes to the tuple's target when [x] is the tuple's value
    and to its next address otherwise. *)
Theorem eq_tuple_says_what_the_jump_does
        (hasher : Expr -> Z) (node : Block)
        (h : Z) (op : string) (e : Expr)
        (value target next_node_addr : Z) :
  _find_switch_variable_comparison_type_a hasher node
    = Some (h, op, e, value, target, next_node_addr) \/
  _find_switch_variable_comparison_type_b hasher node
    = Some (h, op, e, value, target, next_node_addr) ->
  op = "eq"%string /\ h = hasher e /\
  exists rest cmp bits true_target bt false_target bf,
    rev (statements node)
    = ConditionalJump (BinaryOp cmp e (Const value bits))
                      (Const true_target bt) (Const false_target bf) :: rest /\
    ((cmp = "CmpEQ"%string /\
      target = true_target /\ next_node_addr = false_target) \/
     (cmp = "CmpNE"%string /\
      target = false_target /\ next_node_addr = true_target)) /\
    forall x,
      branch_taken
        (ConditionalJump (BinaryOp cmp e (Const value bits))
                         (Const true_target bt) (Const false_target bf)) x
      = Some (if x =? value then target else next_node_addr).
Proof.
  intros H.
  assert (Hs : exists stmt rest,
             rev (statements node) = stmt :: rest /\
             eq_comparison hasher stmt
             = Some (h, op, e, value, target, next_node_addr)).
  { destruct H as [H | H];
      [unfold _find_switch_variable_comparison_type_a in H
      | unfold _find_switch_variable_comparison_type_b in H];
      destruct (rev (statements node)) as [|stmt rest]; try discriminate;
      destruct (first_nonlabel_is_last (statements node)); try discriminate;
      simpl in H; exists stmt, rest; auto. }
  destruct Hs as (stmt & rest & Hrev & He).
  destruct (eq_comparison_inv hasher stmt _ He)
    as (cmp & e' & c & t & f & Hc & Hr).
  destruct (comparison_stmt_inv stmt cmp e' c t f Hc) as (bits & bt & bf & Hst).
  subst stmt.
  destruct Hr as [[Hop Hr] | [Hop Hr]]; inversion Hr; subst;
    (split; [reflexivity |]); (split; [reflexivity |]).
  - exists rest, "CmpEQ"%string, bits, t, bt, f, bf.
    split; [exact Hrev |]. split; [left; auto |]. intros x. reflexivity.
  - exists rest, "CmpNE"%string, bits, t, bt, f, bf.
    split; [exact Hrev |]. split; [right; auto |]. intros x.
    unfold branch_taken. simpl. destruct (x =? c); reflexivity.
Qed.

(** [r1 = r2; if (r0 != 4) goto 30 else goto 31] is of type a: on
    [r0 = 4] it goes to 31, the tuple's target. *)
Lemma eq_tuple_says_what_the_jump_does_witness :
  "eq"%string = "eq"%string /\ 0 = Scenario.reg_hasher (Register 0) /\
  exists rest cmp bits true_target bt false_target bf,
    rev (statements Scenario.assign_cmp_block)
    = ConditionalJump (BinaryOp cmp (Register 0) (Const 4 bits))
                      (Const true_target bt) (Const false_target bf) :: rest /\
    ((cmp = "CmpEQ"%string /\ 31 = true_target /\ 30 = false_target) \/
     (cmp = "CmpNE"%string /\ 31 = false_target /\ 30 = true_target)) /\
    forall x,
      branch_taken
        (ConditionalJump (BinaryOp cmp (Register 0) (Const 4 bits))
                         (Const true_target bt) (Const false_target bf)) x
      = Some (if x =? 4 then 31 else 30).
Proof.
  apply (eq_tuple_says_what_the_jump_does
           Scenario.reg_hasher Scenario.assign_cmp_block
           0 "eq"%string (Register 0) 4 31 30).
  left. vm_compute. reflexivity.
Defined.

(** X2: a block has at most one of the three shapes. A type-a block has
    at least two statements that are not labels, a type-b or type-c block
    has exactly one, and a block that one classifier accepts is rejected
    by the other two. *)
Theorem shapes_exclude_each_other
        (hasher : Expr -> Z) (node : Block) (r : Comparison) :
  (_find_switch_variable_comparison_type_a hasher node = Some r ->
   (2 <= nonlabel_count (statements node))%nat /\
   _find_switch_variable_comparison_type_b hasher node = None /\
   _find_switch_variable_comparison_type_c hasher node = None)
  /\
  (_find_switch_variable_comparison_type_b hasher node = Some r ->
   nonlabel_count (statements node) = 1%nat /\
   _find_switch_variable_comparison_type_a hasher node = None /\
   _find_switch_variable_comparison_type_c hasher node = None)
  /\
  (_find_switch_variable_comparison_type_c hasher node = Some r ->
   nonlabel_count (statements node) = 1%nat /\
   _find_switch_variable_comparison_type_a hasher node = None /\
   _find_switch_variable_comparison_type_b hasher node = None).
Proof.
  unfold _find_switch_variable_comparison_type_a,
    _find_switch_variable_comparison_type_b,
    _find_switch_variable_comparison_type_c.
  destruct (rev (statements node)) as [|stmt rest] eqn:Hrev;
    [repeat split; discriminate |].
  destruct (first_nonlabel_is_last (statements node)) eqn:Hf; simpl.
  - split; [discriminate |].
    pose proof (first_nonlabel_is_last_count _ Hf) as Hc.
    split.
    + intros He. split; [exact Hc |]. split; [reflexivity |].
      destruct (eq_comparison_inv hasher stmt r He)
        as (op & e & c & t & f & Hcs & [[Hop _] | [Hop _]]);
        rewrite Hcs; subst op; destruct (t =? f); reflexivity.
    + intros H. split; [exact Hc |]. split; [reflexivity |].
      unfold eq_comparison.
      destruct (comparison_stmt stmt) as [[[[[op e] c] t] f]|];
        [| discriminate].
      destruct (t =? f); [discriminate |].
      destruct (String.eqb op "CmpGT") eqn:E1.
      { apply String.eqb_eq in E1. subst op. reflexivity. }
      destruct (String.eqb op "CmpGE") eqn:E2.
      { apply String.eqb_eq in E2. subst op. reflexivity. }
      destruct (String.eqb op "CmpLT") eqn:E3.
      { apply String.eqb_eq in E3. subst op. reflexivity. }
      destruct (String.eqb op "CmpLE") eqn:E4; [| discriminate].
      apply String.eqb_eq in E4. subst op. reflexivity.
  - split; [| split; discriminate].
    intros He. split; [| split; reflexivity].
    destruct (eq_comparison_inv hasher stmt r He)
      as (op & e & c & t & f & Hcs & _).
    apply (not_first_nonlabel_count _ stmt rest Hrev); [| exact Hf].
    apply (comparison_stmt_not_label _ _ Hcs).
Qed.

(** One block of each shape. *)
Lemma shapes_exclude_each_other_witness :
  ((2 <= nonlabel_count (statements Scenario.assign_cmp_block))%nat /\
   _find_switch_variable_comparison_type_b
     Scenario.hasher Scenario.assign_cmp_block = None /\
   _find_switch_variable_comparison_type_c
     Scenario.hasher Scenario.assign_cmp_block = None)
  /\
  (nonlabel_count (statements Scenario.N1) = 1%nat /\
   _find_switch_variable_comparison_type_a Scenario.hasher Scenario.N1 = None /\
   _find_switch_variable_comparison_type_c Scenario.hasher Scenario.N1 = None)
  /\
  (nonlabel_count (statements Scenario.ge_block) = 1%nat /\
   _find_switch_variable_comparison_type_a
     Scenario.hasher Scenario.ge_block = None /\
   _find_switch_variable_comparison_type_b
     Scenario.hasher Scenario.ge_block = None).
Proof.
  split; [| split].
  - apply (shapes_exclude_each_other
             Scenario.hasher Scenario.assign_cmp_block
             (0, "eq"%string, Register 0, 4, 31, 30)).
    vm_compute. reflexivity.
  - apply (shapes_exclude_each_other
             Scenario.hasher Scenario.N1
             (0, "eq"%string, Register 0, 1, 11, 2)).
    vm_compute. reflexivity.
  - apply (shapes_exclude_each_other
             Scenario.hasher Scenario.ge_block
             (0, "gt"%string, Register 0, 6, 256, 512)).
    vm_compute. reflexivity.
Defined.

(** X3: a tuple returned by the type-c classifier describes the jump
    that ends the block. The last statement is a conditional jump on
    [cmp(e, c)] with constant targets, where [e], the first operand of
    the condition, is the tuple's expression; the tuple's hash is the
    hash of [e] and its tag is "gt". For [CmpGT] and [CmpGE] the tuple's
    greater and lesser-or-equal addresses are the true and the false
    target of the jump, for [CmpLT] and [CmpLE] they are swapped; the two
    addresses are never equal. *)
Theorem type_c_targets
        (hasher : Expr -> Z) (node : Block)
        (h : Z) (op : string) (e : Expr) (value gt_addr le_addr : Z) :
  _find_switch_variable_comparison_type_c hasher node
    = Some (h, op, e, value, gt_addr, le_addr) ->
  op = "gt"%string /\ h = hasher e /\ gt_addr <> le_addr /\
  exists rest cmp c bits true_target bt false_target bf,
    rev (statements node)
    = ConditionalJump (BinaryOp cmp e (Const c bits))
                      (Const true_target bt) (Const false_target bf) :: rest /\
    (((cmp = "CmpGT"%string \/ cmp = "CmpGE"%string) /\
      gt_addr = true_target /\ le_addr = false_target) \/
     ((cmp = "CmpLT"%string \/ cmp = "CmpLE"%string) /\
      gt_addr = false_target /\ le_addr = true_target)).
Proof.
  intros H.
  destruct (type_c_inv hasher node _ H)
    as (stmt & rest & cmp & e' & c & t & f & Hrev & _ & Hcs & Htf & Hr).
  destruct (comparison_stmt_inv stmt cmp e' c t f Hcs) as (bits & bt & bf & Hst).
  subst stmt.
  destruct Hr as [[Hop Hr] | [[Hop Hr] | [[Hop Hr] | [Hop Hr]]]];
    inversion Hr; subst;
    (split; [reflexivity |]); (split; [reflexivity |]);
    (split; [congruence |]).
  - exists rest, "CmpGT"%string, c, bits, t, bt, f, bf.
    split; [exact Hrev |]. left. auto.
  - exists rest, "CmpGE"%string, c, bits, t, bt, f, bf.
    split; [exact Hrev |]. left. auto.
  - exists rest, "CmpLT"%string, c, bits, t, bt, f, bf.
    split; [exact Hrev |]. right. auto.
  - exists rest, "CmpLE"%string, c, bits, t, bt, f, bf.
    split; [exact Hrev |]. right. auto.
Qed.

(** [if (r3 <= 9) goto 40 else goto 41] is of type c: the greater
    address is the false target. *)
Lemma type_c_targets_witness :
  "gt"%string = "gt"%string /\ 3 = Scenario.reg_hasher (Register 3) /\
  41 <> 40 /\
  exists rest cmp c bits true_target bt false_target bf,
    rev (statements (Scenario.cmp_block_on 3 8 "CmpLE" 9 40 41))
    = ConditionalJump (BinaryOp cmp (Register 3) (Const c bits))
                      (Const true_target bt) (Const false_target bf) :: rest /\
    (((cmp = "CmpGT"%string \/ cmp = "CmpGE"%string) /\
      41 = true_target /\ 40 = false_target) \/
     ((cmp = "CmpLT"%string \/ cmp = "CmpLE"%string) /\
      41 = false_target /\ 40 = true_target)).
Proof.
  apply (type_c_targets Scenario.reg_hasher
           (Scenario.cmp_block_on 3 8 "CmpLE" 9 40 41)
           3 "gt"%string (Register 3) 9 41 40).
  vm_compute. reflexivity.
Defined.

End ShapeSpec.

(* ================================================================== *)
(** ** One duplication round of the Cross-Jump Reverter *)

Module RoundSpec.
Import DiGraph DiGraphFacts CrossJumpReverter DuplicationSpec GraphDefs.

Lemma duplicate_all_idx (l : list (Block * Block)) :
  forall (g g' : t) (i j : Z),
    duplicate_all g i l = Ok (g', j) -> j = i + Z.of_nat (length l).
Proof.
  induction l as [|[tn gn] r IH]; intros g g' i j; simpl.
  - intros H; inversion H; subst. lia.
  - destruct (duplicate g i tn gn) as [g1|e]; simpl; [| discriminate].
    intros H. apply IH in H. lia.
Qed.

(** X4: a round that returns draws one index from the counter for every
    block it collected, so the counter advances by the number of collected
    blocks; the round reports [False] exactly when it collected nothing,
    and then it leaves the graph and the counter as they were. *)
Theorem round_counter
        (gm : GotoManager) (graph graph' : t) (next_idx next_idx' : Z)
        (r : bool) :
  _analyze_core gm graph next_idx = Ok (graph', next_idx', r) ->
  exists to_update,
    collect gm graph (nodes graph) = Ok to_update /\
    next_idx' = next_idx + Z.of_nat (length to_update) /\
    (r = false <-> to_update = []) /\
    (r = false -> graph' = graph /\ next_idx' = next_idx).
Proof.
  unfold _analyze_core.
  destruct (collect gm graph (nodes graph)) as [l|e]; simpl; [| discriminate].
  destruct l as [|p l'].
  - intros H; inversion H; subst. exists []. simpl.
    repeat split; auto; lia.
  - destruct (duplicate_all graph next_idx (p :: l')) as [[g j]|e] eqn:Hd;
      simpl; [| discriminate].
    intros H; inversion H; subst. exists (p :: l').
    split; [reflexivity |]. split; [exact (duplicate_all_idx _ _ _ _ _ Hd) |].
    split; [split; discriminate | discriminate].
Qed.

(** The first round on P -> B -> C, Q -> E -> C with the goto of P. *)
Lemma round_counter_witness :
  exists to_update,
    collect (Scenario.one_goto Scenario.P 3) Scenario.two_jumps
            (nodes Scenario.two_jumps) = Ok to_update /\
    1 = 0 + Z.of_nat (length to_update) /\
    (true = false <-> to_update = []) /\
    (true = false -> Scenario.after_first_round = Scenario.two_jumps /\ 1 = 0).
Proof.
  apply (round_counter (Scenario.one_goto Scenario.P 3) Scenario.two_jumps
           Scenario.after_first_round 0 1 true).
  vm_compute. reflexivity.
Defined.


Lemma occurs_app (g h : t) (b : Block) :
  occurs (g ++ h) b <-> occurs g b \/ occurs h b.
Proof.
  unfold occurs, nodes. rewrite map_app, in_app_iff. split.
  - intros [[H | H] | (k & vs & H & Hb)]; auto.
    apply in_app_or in H. destruct H as [H | H];
      [left | right]; right; exists k, vs; auto.
  - intros [[H | (k & vs & H & Hb)] | [H | (k & vs & H & Hb)]]; auto;
      right; exists k, vs; split; auto; apply in_or_app; auto.
Qed.

Lemma occurs_add_node (g : t) (n b : Block) :
  occurs (add_node g n) b -> occurs g b \/ b = n.
Proof.
  unfold add_node. destruct (has_node g n); [auto |].
  intros H. apply occurs_app in H. destruct H as [H | H]; [auto |].
  right. destruct H as [[H | []] | (k & vs & [H | []] & Hb)].
  - simpl in H. congruence.
  - inversion H; subst. destruct Hb.
Qed.

Lemma occurs_map_add_succ (g : t) (u v b : Block) :
  occurs (map (add_succ u v) g) b -> occurs g b \/ b = v.
Proof.
  unfold occurs, nodes. rewrite map_map.
  intros [H | (k & vs & H & Hb)].
  - left. left. rewrite (map_ext _ fst) in H; [exact H |].
    intros a. apply add_succ_fst.
  - apply in_map_iff in H. destruct H as ([k0 vs0] & E & Hin).
    unfold add_succ in E. simpl in E.
    destruct (Block_eqb k0 u).
    + destruct (mem v vs0); inversion E; subst.
      * left. right. exists k, vs. auto.
      * apply in_app_or in Hb. destruct Hb as [Hb | [Hb | []]].
        -- left. right. exists k, vs0. auto.
        -- right. congruence.
    + inversion E; subst. left. right. exists k, vs. auto.
Qed.

Lemma occurs_add_edge (g : t) (u v b : Block) :
  occurs (add_edge g u v) b -> occurs g b \/ b = u \/ b = v.
Proof.
  unfold add_edge. intros H.
  apply occurs_map_add_succ in H. destruct H as [H | H]; [| auto].
  apply occurs_add_node in H. destruct H as [H | H]; [| auto].
  apply occurs_add_node in H. destruct H as [H | H]; auto.
Qed.

Lemma drop_In (n x : Block) (l : list Block) : In x (drop n l) -> In x l.
Proof. unfold drop. intros H. apply filter_In in H. tauto. Qed.

Lemma occurs_map_del_succ (g : t) (u v b : Block) :
  occurs (map (del_succ u v) g) b -> occurs g b.
Proof.
  unfold occurs, nodes. rewrite map_map.
  intros [H | (k & vs & H & Hb)].
  - left. rewrite (map_ext _ fst) in H; [exact H |].
    intros a. apply del_succ_fst.
  - apply in_map_iff in H. destruct H as ([k0 vs0] & E & Hin).
    unfold del_succ in E. simpl in E. right.
    destruct (Block_eqb k0 u); inversion E; subst.
    + exists k, vs0. split; [exact Hin |]. exact (drop_In _ _ _ Hb).
    + exists k, vs. auto.
Qed.

Lemma occurs_remove_node (g g' : t) (n b : Block) :
  remove_node g n = Ok g' -> occurs g' b -> occurs g b.
Proof.
  unfold remove_node. destruct (has_node g n); [| discriminate].
  intros H; inversion H; subst g'; clear H.
  unfold occurs, nodes. rewrite map_map. simpl.
  intros [H | (k & vs & H & Hb)].
  - left. apply in_map_iff in H. destruct H as (kv & E & Hin).
    apply filter_In in Hin. apply in_map_iff. exists kv. tauto.
  - apply in_map_iff in H. destruct H as ([k0 vs0] & E & Hin).
    inversion E; subst. apply filter_In in Hin. right.
    exists k, vs0. split; [tauto |]. exact (drop_In _ _ _ Hb).
Qed.

Lemma adj_In (g : t) (x : Block) (vs : list Block) :
  adj g x = Some vs -> In (x, vs) g.
Proof.
  induction g as [|[k v] g IH]; simpl; [discriminate |].
  destruct (Block_eqb k x) eqn:E.
  - intros H; inversion H; subst. apply Block_eqb_true_iff in E. subst.
    left. reflexivity.
  - intros H. right. apply IH. exact H.
Qed.

Lemma adj_occurs (g : t) (x y : Block) (vs : list Block) :
  adj g x = Some vs -> In y vs -> occurs g y.
Proof.
  intros H Hy. right. exists x, vs. split; [apply adj_In; exact H | exact Hy].
Qed.

Lemma collect_In (gm : GotoManager) (g : t) (ns : list Block) :
  forall l n tg,
    collect gm g ns = Ok l -> In (n, tg) l ->
    In n ns /\ exists vs, adj g n = Some vs /\ In tg vs.
Proof.
  induction ns as [|m ns IH]; simpl; intros l n tg.
  - intros H; inversion H; subst. intros [].
  - destruct (goto_target_of gm g m) as [o|e] eqn:Hg; simpl; [| discriminate].
    destruct (collect gm g ns) as [rest|e]; simpl; [| discriminate].
    intros H; inversion H; subst; clear H.
    assert (Hrest : In (n, tg) rest ->
              (m = n \/ In n ns) /\ exists vs, adj g n = Some vs /\ In tg vs).
    { intros Hin. destruct (IH rest n tg eq_refl Hin). auto. }
    destruct o as [gt|]; [| exact Hrest].
    intros [E | Hin]; [| exact (Hrest Hin)].
    inversion E; subst. split; [left; reflexivity |].
    unfold goto_target_of in Hg.
    destruct (gotos_in_block gm n) as [|goto [|x y]]; try discriminate.
    unfold successors in Hg.
    destruct (adj g n) as [vs|]; simpl in Hg; [| discriminate].
    destruct (find (fun s => addr s =? target_addr goto) vs) as [b|] eqn:Hf;
      [| discriminate].
    destruct (out_degree g b) as [d|e]; simpl in Hg; [| discriminate].
    destruct (d =? 1); inversion Hg; subst.
    exists vs. split; [reflexivity |]. apply find_some in Hf. tauto.
Qed.

Section Code.

Variable G : t.

Lemma duplicate_keeps_code (g g' : t) (k : Z) (tn gn : Block) :
  (forall b, occurs g b -> exists b0, occurs G b0 /\ same_code b b0) ->
  (exists b0, occurs G b0 /\ same_code tn b0) ->
  (exists b0, occurs G b0 /\ same_code gn b0) ->
  duplicate g k tn gn = Ok g' ->
  forall b, occurs g' b -> exists b0, occurs G b0 /\ same_code b b0.
Proof.
  intros Hg Htn Hgn. unfold duplicate.
  unfold remove_edge. destruct (has_edge g tn gn); simpl; [| discriminate].
  set (cp := set_idx gn (Some k)).
  set (g1 := map (del_succ tn gn) g).
  set (g2 := add_edge g1 tn cp).
  assert (Hcp : exists b0, occurs G b0 /\ same_code cp b0).
  { destruct Hgn as (b0 & H1 & H2 & H3). exists b0. split; [exact H1 |].
    split; simpl; assumption. }
  assert (Hg2 : forall b, occurs g2 b -> exists b0, occurs G b0 /\ same_code b b0).
  { intros b Hb. apply occurs_add_edge in Hb.
    destruct Hb as [Hb | [Hb | Hb]]; try (subst b; assumption).
    apply Hg. exact (occurs_map_del_succ _ _ _ _ Hb). }
  unfold successors. destruct (adj g2 gn) as [succs|] eqn:Ha; simpl;
    [| discriminate].
  destruct succs as [|suc rest]; [discriminate |].
  assert (Hg3 : forall b, occurs (add_edge g2 cp suc) b ->
                          exists b0, occurs G b0 /\ same_code b b0).
  { intros b Hb. apply occurs_add_edge in Hb.
    destruct Hb as [Hb | [Hb | Hb]]; try (subst b; assumption).
    - apply Hg2. exact Hb.
    - subst b. apply Hg2. apply (adj_occurs g2 gn suc _ Ha). left.
      reflexivity. }
  destruct (in_degree_is_zero (add_edge g2 cp suc) gn).
  - intros Hr b Hb. apply Hg3. exact (occurs_remove_node _ _ _ _ Hr Hb).
  - intros Hr; inversion Hr; subst. exact Hg3.
Qed.

Lemma duplicate_all_keeps_code (l : list (Block * Block)) :
  forall (g g' : t) (i j : Z),
    (forall b, occurs g b -> exists b0, occurs G b0 /\ same_code b b0) ->
    (forall n tg, In (n, tg) l ->
        (exists b0, occurs G b0 /\ same_code n b0) /\
        (exists b0, occurs G b0 /\ same_code tg b0)) ->
    duplicate_all g i l = Ok (g', j) ->
    forall b, occurs g' b -> exists b0, occurs G b0 /\ same_code b b0.
Proof.
  induction l as [|[tn gn] r IH]; intros g g' i j Hg Hl; simpl.
  - intros H; inversion H; subst. exact Hg.
  - destruct (duplicate g i tn gn) as [g1|e] eqn:Hd; simpl; [| discriminate].
    destruct (Hl tn gn (or_introl eq_refl)) as [Htn Hgn].
    apply IH.
    + exact (duplicate_keeps_code g g1 i tn gn Hg Htn Hgn Hd).
    + intros n tg Hin. apply Hl. right. exact Hin.
Qed.

End Code.

(** X5: a round adds no new code. Every block that is a node or a
    successor in the graph after the round has the address and the
    statements of a block that was a node or a successor before it: the
    only new blocks are copies, which differ from their original in the
    index alone. *)
Theorem round_keeps_code
        (gm : GotoManager) (graph graph' : t) (next_idx next_idx' : Z)
        (r : bool) (b : Block) :
  _analyze_core gm graph next_idx = Ok (graph', next_idx', r) ->
  occurs graph' b ->
  exists b0, occurs graph b0 /\ addr b = addr b0 /\
             statements b = statements b0.
Proof.
  intros H Hb.
  assert (Hrefl : forall x, occurs graph x ->
            exists b0, occurs graph b0 /\ same_code x b0).
  { intros x Hx. exists x. split; [exact Hx | split; reflexivity]. }
  unfold _analyze_core in H.
  destruct (collect gm graph (nodes graph)) as [l|e] eqn:Hc; simpl in H;
    [| discriminate].
  destruct l as [|p l'].
  - inversion H; subst. exact (Hrefl b Hb).
  - destruct (duplicate_all graph next_idx (p :: l')) as [[g j]|e] eqn:Hd;
      simpl in H; [| discriminate].
    inversion H; subst.
    apply (duplicate_all_keeps_code graph (p :: l') graph graph' next_idx
             next_idx' Hrefl); [| exact Hd | exact Hb].
    intros n tg Hin.
    destruct (collect_In gm graph (nodes graph) _ n tg Hc Hin)
      as (Hn & vs & Ha & Ht).
    split; apply Hrefl; [left; exact Hn | exact (adj_occurs _ _ _ _ Ha Ht)].
Qed.

(** The copy of B made by the first round on P -> B -> C, Q -> E -> C. *)
Lemma round_keeps_code_witness :
  exists b0, occurs Scenario.two_jumps b0 /\
             addr (set_idx Scenario.B (Some 0)) = addr b0 /\
             statements (set_idx Scenario.B (Some 0)) = statements b0.
Proof.
  apply (round_keeps_code (Scenario.one_goto Scenario.P 3) Scenario.two_jumps
           Scenario.after_first_round 0 1 true).
  - vm_compute. reflexivity.
  - left. simpl. auto 10.
Defined.


(** X6: a round raises [NetworkXError] when a block it copies away is
    itself up for an update later in the same round. P and B are the only
    collected blocks, P before B; the goto of P resolves to B, whose only
    predecessor is P, and the goto of B resolves to its only successor C.
    Copying B for P drains the in-degree of B, so B is removed, and the
    later [remove_edge(B, C)] finds no such edge. *)
Theorem round_raises_when_a_copied_block_is_updated
        (gm : GotoManager) (G : t) (P B C D : Block) (goto1 goto2 : Goto)
        (s1 l1 l2 l3 : list Block) (i : Z) :
  nodes G = l1 ++ P :: l2 ++ B :: l3 ->
  (forall n, In n (l1 ++ l2 ++ l3) -> goto_target_of gm G n = Ok None) ->
  gotos_in_block gm P = [goto1] ->
  adj G P = Some s1 ->
  find (fun x => addr x =? target_addr goto1) s1 = Some B ->
  gotos_in_block gm B = [goto2] ->
  adj G B = Some [C] ->
  addr C = target_addr goto2 ->
  adj G C = Some [D] ->
  pred_list G B = [P] ->
  B <> C ->
  has_node G (set_idx B (Some i)) = false ->
  _analyze_core gm G i = Raise NetworkXError.
Proof.
  intros Hn Hother Hg1 HP Hf1 Hg2 HB HaC HC Hpred HBC Hfresh.
  assert (Hm1 : mem B s1 = true).
  { apply mem_In. apply find_some in Hf1. tauto. }
  assert (HPB : P <> B).
  { intros E. subst P. rewrite HB in HP. inversion HP; subst s1.
    apply mem_In in Hm1. destruct Hm1 as [E | []]. congruence. }
  assert (HnC : has_node G C = true) by (rewrite has_node_adj, HC; reflexivity).
  assert (Hcol : collect gm G (nodes G) = Ok [(P, B); (B, C)]).
  { rewrite Hn.
    change (l1 ++ P :: l2 ++ B :: l3)
      with (l1 ++ ([P] ++ (l2 ++ ([B] ++ l3)))).
    assert (Hl : forall l, incl l (l1 ++ l2 ++ l3) -> collect gm G l = Ok []).
    { intros l Hl. apply collect_none. intros n Hin. apply Hother.
      apply Hl. exact Hin. }
    apply (collect_app gm G l1 _ [] [(P, B); (B, C)]).
    { apply Hl. apply incl_appl. apply incl_refl. }
    apply (collect_app gm G [P] _ [(P, B)] [(B, C)]).
    { simpl. rewrite (collect_one gm G P B C goto1 s1) by assumption.
      reflexivity. }
    apply (collect_app gm G l2 _ [] [(B, C)]).
    { apply Hl. apply incl_appr. apply incl_appl. apply incl_refl. }
    apply (collect_app gm G [B] _ [(B, C)] []).
    { simpl. rewrite (collect_one gm G B C D goto2 [C]); try assumption.
      - reflexivity.
      - simpl. rewrite HaC, Z.eqb_refl. reflexivity. }
    apply Hl. apply incl_appr. apply incl_appr. apply incl_refl. }
  set (cp := set_idx B (Some i)) in *.
  set (g3 := add_edge (add_edge (map (del_succ P B) G) P cp) cp C).
  assert (Hg3B : adj g3 B = Some [C]).
  { unfold g3. rewrite (duplicate_adj G P B C cp s1 B HP Hfresh HnC).
    assert (E1 : Block_eqb B cp = false).
    { apply Block_eqb_false_iff. intros E. rewrite <- E in Hfresh.
      rewrite has_node_adj, HB in Hfresh. discriminate. }
    assert (E2 : Block_eqb B P = false)
      by (apply Block_eqb_false_iff; congruence).
    rewrite E1, E2. exact HB. }
  assert (Hrm : exists g', remove_node g3 B = Ok g').
  { unfold remove_node. rewrite has_node_adj, Hg3B. eexists. reflexivity. }
  destruct Hrm as [g' Hg'].
  assert (Hd1 : duplicate G i P B = Ok g').
  { rewrite (duplicate_spec G i P B C s1) by assumption.
    rewrite Hpred. simpl. rewrite Block_eqb_refl. simpl. exact Hg'. }
  assert (Hd2 : duplicate g' (i + 1) B C = Raise NetworkXError).
  { unfold duplicate, remove_edge, has_edge.
    rewrite (adj_remove_node g3 g' B B Hg'), Block_eqb_refl. reflexivity. }
  unfold _analyze_core. rewrite Hcol. simpl. rewrite Hd1. simpl.
  rewrite Hd2. reflexivity.
Qed.

(** P -> B -> C -> block 6 with a goto to B in P and a goto to C in B. *)
Lemma round_raises_when_a_copied_block_is_updated_witness :
  _analyze_core Scenario.chained_gotos Scenario.goto_chain 0
  = Raise NetworkXError.
Proof.
  apply (round_raises_when_a_copied_block_is_updated
           Scenario.chained_gotos Scenario.goto_chain
           Scenario.P Scenario.B Scenario.C (Scenario.blk 6)
           (mkGoto 1 3) (mkGoto 3 5) [Scenario.B]
           [] [] [Scenario.C; Scenario.blk 6] 0);
    try (vm_compute; reflexivity); try (vm_compute; discriminate).
  intros n [H | [H | []]]; subst n; vm_compute; reflexivity.
Defined.

(** X7: the pass leaves [out_graph] unset and the index counter where it
    started whenever no round edits the graph: with [max_level = 0], when
    the first structuring run fails, when it reports no goto, and when no
    block of the graph qualifies for an update. *)
Theorem nothing_to_edit_no_output
        (structure : DiGraph.t -> option GotoManager)
        (to_ail_supergraph : DiGraph.t -> DiGraph.t)
        (max_level : nat) (graph : DiGraph.t) (node_idx_start : Z) :
  max_level = O \/
  structure (to_ail_supergraph (DiGraph.copy graph)) = None \/
  (exists gm,
      structure (to_ail_supergraph (DiGraph.copy graph)) = Some gm /\
      (gotos gm = [] \/
       collect gm (to_ail_supergraph (DiGraph.copy graph))
               (nodes (to_ail_supergraph (DiGraph.copy graph))) = Ok [])) ->
  exists st,
    _analyze structure to_ail_supergraph max_level graph node_idx_start
      = Ok st
    /\ out_graph st = None
    /\ node_idx st = node_idx_start.
Proof.
  intros H. unfold _analyze.
  destruct max_level as [|n].
  { simpl. eexists. split; [reflexivity |]. split; reflexivity. }
  destruct H as [H | [H | (gm & Hs & H)]]; [discriminate | |].
  - simpl. unfold _structure_graph. simpl. rewrite H. simpl.
    eexists. split; [reflexivity |]. split; reflexivity.
  - simpl. unfold _structure_graph. simpl. rewrite Hs. simpl.
    destruct H as [H | H].
    + rewrite H. simpl. eexists. split; [reflexivity |]. split; reflexivity.
    + destruct (length (gotos gm) =? 0)%nat; simpl.
      * eexists. split; [reflexivity |]. split; reflexivity.
      * unfold _analyze_core. rewrite H. simpl.
        eexists. split; [reflexivity |]. split; reflexivity.
Qed.

(** P -> B -> C, Q -> E -> C when the only goto is in a block that is not
    in the graph. *)
Lemma nothing_to_edit_no_output_witness :
  exists st,
    _analyze Scenario.structure_one_goto (fun g => g) 10 Scenario.two_jumps 0
      = Ok st
    /\ out_graph st = None
    /\ node_idx st = 0.
Proof.
  apply (nothing_to_edit_no_output
           Scenario.structure_one_goto (fun g => g) 10 Scenario.two_jumps 0).
  right. right. exists (Scenario.one_goto (Scenario.blk 20) 0).
  split; [reflexivity |]. right. vm_compute. reflexivity.
Defined.

End RoundSpec.

(* ================================================================== *)
(** ** The chains of the recognizer and the blocks they come from *)

Module ChainSpec.
Import LoweredSwitchSimplifier Invariants ChainDefs RecognizerSpec.

Lemma last_varhash_of_app (cs : list Case) (c : Case) :
  last_varhash_of (cs ++ [c]) = Some (variable_hash c).
Proof. unfold last_varhash_of. rewrite rev_app_distr. reflexivity. Qed.

Lemma last_varhash_of_In (cs : list Case) (v : Z) :
  last_varhash_of cs = Some v -> exists c, In c cs /\ variable_hash c = v.
Proof.
  unfold last_varhash_of. destruct (rev cs) as [|c r] eqn:E; [discriminate |].
  intros H; inversion H; subst. exists c. split; [| reflexivity].
  apply in_rev. rewrite E. left. reflexivity.
Qed.

Section Walk.

Variable _get_blocks : Z -> list Block.
Variable vc : VarComps.
Variable graph : DiGraph.t.
Variable head : Block.

Lemma walk_ok_add_case (w : walk) (c : Case) :
  walk_ok vc w ->
  same_variable (last_varhash_of (cases w)) (variable_hash c) = true ->
  (is_default c = false -> from_comparison vc c) ->
  (cases w = [] -> is_default c = false) ->
  walk_ok vc (add_case w c).
Proof.
  intros (H1 & H2 & H3 & H4) Hs Hc Hfirst.
  split; [| split; [| split]]; simpl; [| | | exact H4].
  - intros c' Hc'. rewrite last_varhash_of_app.
    assert (Hold : In c' (cases w) \/
                   In c' (map snd (default_case_candidates w)) ->
                   variable_hash c = variable_hash c').
    { intros H. apply H1 in H. rewrite H in Hs. simpl in Hs.
      apply Z.eqb_eq in Hs. congruence. }
    destruct Hc' as [Hc' | Hc'].
    + apply in_app_or in Hc'. destruct Hc' as [Hc' | [E | []]].
      * rewrite (Hold (or_introl Hc')). reflexivity.
      * subst. reflexivity.
    + rewrite (Hold (or_intror Hc')). reflexivity.
  - destruct (cases w) as [|c0 r]; simpl; [apply Hfirst; reflexivity | exact H2].
  - intros c' Hin Hd. apply in_app_or in Hin. destruct Hin as [Hin | [E | []]].
    + exact (H3 c' Hin Hd).
    + subst. exact (Hc Hd).
Qed.

Lemma walk_ok_add_candidate (w : walk) (a : Z) (c : Case) :
  walk_ok vc w ->
  last_varhash_of (cases w) = Some (variable_hash c) ->
  is_default c = true ->
  walk_ok vc (add_candidate w a c).
Proof.
  intros (H1 & H2 & H3 & H4) Hc Hdef.
  assert (Hin : forall c', In c' (map snd (zdict_set (default_case_candidates w) a c)) ->
                           c' = c \/ In c' (map snd (default_case_candidates w))).
  { intros c' Hc'. apply in_map_iff in Hc'. destruct Hc' as ([a' c''] & E & Hin).
    simpl in E. subst c''. apply zdict_set_In in Hin.
    destruct Hin as [[_ E] | Hin]; [left; exact E |].
    right. apply in_map_iff. exists (a', c'). auto. }
  split; [| split; [| split]]; simpl; [| exact H2 | exact H3 |].
  - intros c' [Hc' | Hc']; [apply H1; left; exact Hc' |].
    destruct (Hin c' Hc') as [E | H]; [subst; exact Hc | apply H1; right; exact H].
  - intros c' Hc'.
    destruct (Hin c' Hc') as [E | H]; [subst; exact Hdef | exact (H4 c' H)].
Qed.

Lemma eq_tail_ok (comp : Block) (min_ max_ variable_hash : Z) (expr : Expr)
      (target : Z) (w : walk) (r : ctl) :
  walk_ok vc w ->
  last_varhash_of (cases w) = Some variable_hash ->
  eq_tail _get_blocks vc graph head comp min_ max_ variable_hash expr target w
    = Ok r ->
  walk_ok vc (walk_of r).
Proof.
  intros Hinv Hlast. unfold eq_tail.
  destruct (if Block_eqb comp head then Ok 0
            else DiGraph.in_degree_item graph comp) as [d|e]; simpl;
    [| discriminate].
  destruct (d >? 1).
  { intros H; inversion H; subst. exact Hinv. }
  destruct (other_successors graph comp) as [succs|e]; simpl; [| discriminate].
  destruct (zmem target (map addr succs)).
  2: { intros H; inversion H; subst. exact Hinv. }
  destruct (find (fun a => negb (a =? target)) (map addr succs)) as [na|].
  2: { intros H; inversion H; subst. exact Hinv. }
  destruct (_get_blocks na) as [|b1 [|b2 bs]] eqn:Hgb.
  - discriminate.
  - destruct (dict_has vc b1).
    { intros H; inversion H; subst. exact Hinv. }
    destruct (zdict_has (default_case_candidates w) na).
    { intros H; inversion H; subst. exact Hinv. }
    intros H; inversion H; subst.
    apply (walk_ok_add_candidate w na _ Hinv); [exact Hlast | reflexivity].
  - destruct (dict_has vc b1).
    { intros H; inversion H; subst. exact Hinv. }
    intros H; inversion H; subst.
    apply (walk_ok_add_case w _ Hinv).
    + rewrite Hlast. simpl. apply Z.eqb_refl.
    + discriminate.
    + intros E. rewrite E in Hlast. discriminate.
Qed.

Lemma walk_step_ok (w : walk) (comp : Block) (min_ max_ : Z) (r : ctl) :
  walk_ok vc w ->
  walk_step _get_blocks vc graph head w comp min_ max_ = Ok r ->
  walk_ok vc (walk_of r).
Proof.
  intros Hinv. unfold walk_step.
  destruct (dict_get vc comp) as [[ct [[[[[vh op] e] v] tg] nx]]|] eqn:Hvc;
    [| discriminate].
  destruct (String.eqb op "eq") eqn:Hop.
  { apply String.eqb_eq in Hop. subst op.
    destruct (same_variable (last_varhash_of (cases w)) vh) eqn:Hsv.
    - destruct (tg =? addr comp).
      + intros H; inversion H; subst. exact Hinv.
      + apply eq_tail_ok.
        * apply (walk_ok_add_case w _ Hinv); simpl; try reflexivity;
            [exact Hsv |].
          intros _. exists ct, e, v, nx. simpl. auto.
        * simpl. apply last_varhash_of_app.
    - destruct (last_comp w) as [lc|], (last_varhash_of (cases w)) as [lh|] eqn:Hl;
        try (intros H; inversion H; subst; exact Hinv).
      destruct (zdict_has (default_case_candidates w) (addr comp)).
      + intros H; inversion H; subst. exact Hinv.
      + intros H; inversion H; subst.
        apply (walk_ok_add_candidate w _ _ Hinv); [exact Hl | reflexivity]. }
  destruct (String.eqb op "gt").
  2: { intros H; inversion H; subst. exact Hinv. }
  destruct (same_variable (last_varhash_of (cases w)) vh).
  2: { intros H; inversion H; subst. exact Hinv. }
  destruct (other_successors graph comp) as [succs|e0]; simpl; [| discriminate].
  match goal with |- context [if ?b then _ else _] => destruct b end.
  2: { intros H; inversion H; subst. exact Hinv. }
  destruct (find (fun s => addr s =? tg) succs) as [gc|]; [| discriminate].
  destruct (find (fun s => addr s =? nx) succs) as [lc|]; [| discriminate].
  destruct (dict_has vc gc && dict_has vc lc);
    intros H; inversion H; subst; exact Hinv.
Qed.

Lemma walk_loop_ok (fuel : nat) :
  forall (w w' : walk),
    walk_ok vc w ->
    walk_loop _get_blocks fuel vc graph head w = Ok w' ->
    walk_ok vc w'.
Proof.
  induction fuel as [|fuel IH]; intros w w' Hinv; simpl.
  - destruct (stack w) as [|[[comp mn] mx] rest]; [| discriminate].
    intros H; inversion H; subst. exact Hinv.
  - destruct (stack w) as [|[[comp mn] mx] rest].
    { intros H; inversion H; subst. exact Hinv. }
    match goal with
    | |- context [walk_step _ _ _ _ ?w0 _ _ _] =>
        pose proof (walk_step_ok w0 comp mn mx) as Hs;
        destruct (walk_step _get_blocks vc graph head w0 comp mn mx)
          as [[w1|w1]|e]; simpl; try discriminate
    end.
    + apply IH. apply (Hs (Continue w1)); [exact Hinv | reflexivity].
    + intros H; inversion H; subst.
      apply (Hs (Break w')); [exact Hinv | reflexivity].
Qed.

Lemma init_walk_ok (used : list Block) : walk_ok vc (init_walk head used).
Proof.
  split; [| split; [| split]]; simpl;
    [intros c [[] | []] | exact I | intros c [] | intros c []].
Qed.

End Walk.

Section Heads.

Variable _get_blocks : Z -> list Block.
Variable vc : VarComps.
Variable graph : DiGraph.t.

(** Whatever holds of every accepted walk holds of every stored chain. *)
Lemma heads_loop_chains (Q : Z -> list Case -> Prop) (fuel : nat) :
  (forall h used w cs extra v,
      walk_loop _get_blocks fuel vc graph h (init_walk h used) = Ok w ->
      accept_chain w = Some (cs, extra) ->
      last_varhash_of cs = Some v -> Q v cs) ->
  forall (heads : list Block) (d d' : CaseLists) (used used' : list Block),
    (forall v chains cs red, In (v, chains) d -> In (cs, red) chains -> Q v cs) ->
    heads_loop _get_blocks fuel vc graph (d, used) heads = Ok (d', used') ->
    forall v chains cs red, In (v, chains) d' -> In (cs, red) chains -> Q v cs.
Proof.
  intros HQ. induction heads as [|h r IH]; intros d d' used used' Hd.
  - simpl. intros H; inversion H; subst. exact Hd.
  - change (heads_loop _get_blocks fuel vc graph (d, used) (h :: r))
      with (bind (process_head _get_blocks fuel vc graph (d, used) h)
                 (fun acc' => heads_loop _get_blocks fuel vc graph acc' r)).
    destruct (process_head _get_blocks fuel vc graph (d, used) h)
      as [[d1 used1]|e] eqn:Hp; [| discriminate].
    unfold bind. apply IH. clear IH.
    unfold process_head in Hp.
    destruct (mem h used); [inversion Hp; subst; exact Hd |].
    destruct (walk_loop _get_blocks fuel vc graph h (init_walk h used))
      as [w|e] eqn:Hw; simpl in Hp; [| discriminate].
    destruct (accept_chain w) as [[cs0 extra]|] eqn:Ha;
      [| inversion Hp; subst; exact Hd].
    destruct (last_varhash_of cs0) as [v0|] eqn:Hv;
      [| inversion Hp; subst; exact Hd].
    inversion Hp; subst; clear Hp.
    intros v chains cs red Hin Hc.
    apply zdict_set_In in Hin. destruct Hin as [[Hv' Hch] | Hin].
    + subst. apply merge_chain_In in Hc. destruct Hc as [E | [red0 H0]].
      * subst cs. exact (HQ h used w cs0 extra v0 Hw Ha Hv).
      * unfold caselists_of in H0.
        destruct (zdict_get d v0) as [l|] eqn:Hg; [| destruct H0].
        apply zdict_get_In in Hg. exact (Hd v0 l cs red0 Hg H0).
    + exact (Hd v chains cs red Hin Hc).
Qed.

(** Every chain that the loop over the heads stores is filed under the
    hash of all its cases, starts with a case that is not a default
    case, and mirrors the comparisons of its blocks. *)
Lemma stored_chains_ok (fuel : nat) (d : CaseLists) (used : list Block) :
  heads_loop _get_blocks fuel vc graph ([], []) (map fst vc) = Ok (d, used) ->
  forall v chains cs red,
    In (v, chains) d -> In (cs, red) chains ->
    (forall c, In c cs -> variable_hash c = v) /\
    (exists c rest, cs = c :: rest /\ is_default c = false) /\
    (forall c, In c cs -> is_default c = false -> from_comparison vc c).
Proof.
  intros Hh.
  apply (heads_loop_chains
           (fun v cs =>
              (forall c, In c cs -> variable_hash c = v) /\
              (exists c rest, cs = c :: rest /\ is_default c = false) /\
              (forall c, In c cs -> is_default c = false ->
                         from_comparison vc c))
           fuel) with (heads := map fst vc) (d := []) (used := [])
                      (used' := used); [| intros v chains cs red [] | exact Hh].
  intros h used0 w cs extra v Hw Ha Hv.
  destruct (accept_chain_shape w cs extra Ha) as (Hne & _ & Hcs).
  assert (Hok : walk_ok vc w).
  { apply (walk_loop_ok _get_blocks vc graph h fuel (init_walk h used0) w); [| exact Hw].
    apply init_walk_ok. }
  destruct Hok as (H1 & H2 & H3 & H4).
  assert (Hall : forall c, In c cs ->
                           last_varhash_of (cases w) = Some (variable_hash c)).
  { intros c Hc. apply H1. rewrite Hcs in Hc. apply in_app_or in Hc. exact Hc. }
  split; [| split].
  - intros c Hc. destruct (last_varhash_of_In cs v Hv) as (c0 & Hc0 & E).
    apply Hall in Hc. apply Hall in Hc0. congruence.
  - rewrite Hcs. destruct (cases w) as [|c0 r]; [congruence |].
    exists c0, (r ++ map snd (default_case_candidates w)). split; [reflexivity |].
    exact H2.
  - intros c Hc Hd. rewrite Hcs in Hc. apply in_app_or in Hc.
    destruct Hc as [Hc | Hc]; [exact (H3 c Hc Hd) |].
    rewrite (H4 c Hc) in Hd. discriminate.
Qed.

End Heads.

Lemma dict_get_dict_set {V : Type} (d : list (Block * V)) (k n : Block) (v : V) :
  dict_get (dict_set d k v) n
  = if Block_eqb k n then Some v else dict_get d n.
Proof.
  induction d as [|[k' v'] d IH]; simpl; [reflexivity |].
  destruct (Block_eqb k' k) eqn:E; simpl.
  - apply Block_eqb_true_iff in E. subst k'.
    destruct (Block_eqb k n); reflexivity.
  - rewrite IH. destruct (Block_eqb k' n) eqn:E'; [| reflexivity].
    apply Block_eqb_true_iff in E'. subst k'.
    apply Block_eqb_false_iff in E.
    destruct (Block_eqb k n) eqn:E''; [| reflexivity].
    apply Block_eqb_true_iff in E''. congruence.
Qed.

(** The table of comparisons holds what [classify] says of its keys. *)
Lemma build_variable_comparisons_classify
      (hasher : Expr -> Z) (sorted_nodes : list Block) (n : Block)
      (r : string * Comparison) :
  dict_get (build_variable_comparisons hasher sorted_nodes) n = Some r ->
  classify hasher n = Some r.
Proof.
  unfold build_variable_comparisons.
  assert (H : forall l d,
             (forall n r, dict_get d n = Some r -> classify hasher n = Some r) ->
             forall n r,
               dict_get (fold_left
                           (fun d node =>
                              match classify hasher node with
                              | Some r => dict_set d node r
                              | None => d
                              end) l d) n = Some r ->
               classify hasher n = Some r).
  { induction l as [|x l IH]; intros d Hd; simpl; [exact Hd |].
    apply IH. destruct (classify hasher x) as [rx|] eqn:Hx; [| exact Hd].
    intros n0 r0. rewrite dict_get_dict_set.
    destruct (Block_eqb x n0) eqn:E; [| apply Hd].
    apply Block_eqb_true_iff in E. subst. intros H; inversion H; subst.
    exact Hx. }
  apply H. intros n0 r0. simpl. discriminate.
Qed.

(** A classified "eq" tuple comes from the type-a or the type-b
    classifier, under the tag "a" or "b". *)
Lemma classify_eq (hasher : Expr -> Z) (n : Block) (ct : string)
      (h : Z) (e : Expr) (v t nx : Z) :
  classify hasher n = Some (ct, (h, "eq"%string, e, v, t, nx)) ->
  (ct = "a"%string /\
   _find_switch_variable_comparison_type_a hasher n
   = Some (h, "eq"%string, e, v, t, nx)) \/
  (ct = "b"%string /\
   _find_switch_variable_comparison_type_b hasher n
   = Some (h, "eq"%string, e, v, t, nx)).
Proof.
  unfold classify.
  destruct (_find_switch_variable_comparison_type_a hasher n) as [ra|].
  { intros H; inversion H; subst. left. auto. }
  destruct (_find_switch_variable_comparison_type_b hasher n) as [rb|].
  { intros H; inversion H; subst. right. auto. }
  destruct (_find_switch_variable_comparison_type_c hasher n) as [rc|] eqn:Hc;
    [| discriminate].
  intros H; inversion H; subst.
  destruct (ShapeSpec.type_c_inv hasher n _ Hc)
    as (stmt & rest & op & e' & c & t' & f & _ & _ & _ & _ & Hr).
  destruct Hr as [[_ Hr] | [[_ Hr] | [[_ Hr] | [_ Hr]]]]; inversion Hr.
Qed.

Lemma emitted_chain_stored
        (StableVarExprHasher : Expr -> Z)
        (quasi_topological_sort_nodes : DiGraph.t -> list Block)
        (_get_blocks : Z -> list Block)
      (fuel : nat) (graph : DiGraph.t) (res : CaseLists)
      (v : Z) (chains : list Chain) (cs : list Case) (red : list Block) :
  _find_cascading_switch_variable_comparisons
    StableVarExprHasher quasi_topological_sort_nodes _get_blocks fuel graph
    = Ok res ->
  In (v, chains) res ->
  In (cs, red) chains ->
  (forall c, In c cs -> variable_hash c = v) /\
  (exists c rest, cs = c :: rest /\ is_default c = false) /\
  (forall c, In c cs -> is_default c = false ->
             from_comparison
               (build_variable_comparisons
                  StableVarExprHasher (quasi_topological_sort_nodes graph)) c).
Proof.
  unfold _find_cascading_switch_variable_comparisons.
  set (vc := build_variable_comparisons
               StableVarExprHasher (quasi_topological_sort_nodes graph)).
  intros H Hv Hc.
  destruct (heads_loop _get_blocks fuel vc graph ([], []) (map fst vc))
    as [[d used]|e] eqn:Hh; simpl in H; [| discriminate].
  destruct (final_filter_In graph d res v chains H Hv) as (chains0 & Hd & Hfc).
  destruct (filter_chains_In graph chains0 chains (cs, red) Hfc Hc)
    as [Hin _].
  exact (stored_chains_ok _get_blocks vc graph fuel d used Hh v chains0 cs red
           Hd Hin).
Qed.

(** X8: the recognizer files every chain under the expression hash of
    its cases: each case of a chain stored under the key [v], the default
    cases included, has [variable_hash = v]. One chain never mixes
    comparisons of two variables. *)
Theorem chains_are_filed_under_their_variable
        (StableVarExprHasher : Expr -> Z)
        (quasi_topological_sort_nodes : DiGraph.t -> list Block)
        (_get_blocks : Z -> list Block)
        (fuel : nat) (graph : DiGraph.t) (res : CaseLists)
        (v : Z) (chains : list Chain) (cs : list Case) (red : list Block)
        (c : Case) :
  _find_cascading_switch_variable_comparisons
    StableVarExprHasher quasi_topological_sort_nodes _get_blocks fuel graph
    = Ok res ->
  In (v, chains) res ->
  In (cs, red) chains ->
  In c cs ->
  variable_hash c = v.
Proof.
  intros H Hv Hc Hin.
  destruct (emitted_chain_stored _ _ _ fuel graph res v chains cs red H Hv Hc)
    as (H1 & _ & _).
  exact (H1 c Hin).
Qed.

(** The default case of the four-way ladder. *)
Lemma chains_are_filed_under_their_variable_witness :
  variable_hash
    (mkCase Scenario.N3 None 0 (Some (Register 0)) DefaultValue 14 None) = 0.
Proof.
  apply (chains_are_filed_under_their_variable
           Scenario.hasher Scenario.node_order
           (Scenario.blocks_of Scenario.ladder) 10 Scenario.ladder
           [(0, [(Scenario.ladder_cases, [])])] 0
           [(Scenario.ladder_cases, [])] Scenario.ladder_cases []).
  - vm_compute. reflexivity.
  - left. reflexivity.
  - left. reflexivity.
  - right. right. right. left. reflexivity.
Defined.

(** X9: every chain of the recognizer starts with a case that is not a
    default case, and every case of it that is not a default case mirrors
    the comparison of its block: the block is accepted by the type-a or
    the type-b classifier, under the case's type tag, with a tuple made
    of the case's hash, expression, value, target and next address. *)
Theorem cases_mirror_their_blocks
        (StableVarExprHasher : Expr -> Z)
        (quasi_topological_sort_nodes : DiGraph.t -> list Block)
        (_get_blocks : Z -> list Block)
        (fuel : nat) (graph : DiGraph.t) (res : CaseLists)
        (v : Z) (chains : list Chain) (cs : list Case) (red : list Block) :
  _find_cascading_switch_variable_comparisons
    StableVarExprHasher quasi_topological_sort_nodes _get_blocks fuel graph
    = Ok res ->
  In (v, chains) res ->
  In (cs, red) chains ->
  (exists c rest, cs = c :: rest /\ is_default c = false) /\
  forall c, In c cs -> is_default c = false ->
    exists e val next,
      expr c = Some e /\ value c = IntValue val /\ next_addr c = Some next /\
      ((node_type c = Some "a"%string /\
        _find_switch_variable_comparison_type_a
          StableVarExprHasher (original_node c)
        = Some (variable_hash c, "eq"%string, e, val, target c, next)) \/
       (node_type c = Some "b"%string /\
        _find_switch_variable_comparison_type_b
          StableVarExprHasher (original_node c)
        = Some (variable_hash c, "eq"%string, e, val, target c, next))).
Proof.
  intros H Hv Hc.
  destruct (emitted_chain_stored _ _ _ fuel graph res v chains cs red H Hv Hc)
    as (_ & H2 & H3).
  split; [exact H2 |].
  intros c Hin Hd.
  destruct (H3 c Hin Hd) as (ct & e & val & nx & Hg & Ht & He & Hval & Hn).
  apply build_variable_comparisons_classify in Hg.
  apply classify_eq in Hg.
  exists e, val, nx. repeat (split; [assumption |]).
  destruct Hg as [[E Hg] | [E Hg]]; subst ct; auto.
Qed.

(** The chain of the four-way ladder. *)
Lemma cases_mirror_their_blocks_witness :
  (exists c rest, Scenario.ladder_cases = c :: rest /\ is_default c = false) /\
  forall c, In c Scenario.ladder_cases -> is_default c = false ->
    exists e val next,
      expr c = Some e /\ value c = IntValue val /\ next_addr c = Some next /\
      ((node_type c = Some "a"%string /\
        _find_switch_variable_comparison_type_a
          Scenario.hasher (original_node c)
        = Some (variable_hash c, "eq"%string, e, val, target c, next)) \/
       (node_type c = Some "b"%string /\
        _find_switch_variable_comparison_type_b
          Scenario.hasher (original_node c)
        = Some (variable_hash c, "eq"%string, e, val, target c, next))).
Proof.
  apply (cases_mirror_their_blocks
           Scenario.hasher Scenario.node_order
           (Scenario.blocks_of Scenario.ladder) 10 Scenario.ladder
           [(0, [(Scenario.ladder_cases, [])])] 0
           [(Scenario.ladder_cases, [])] Scenario.ladder_cases []).
  - vm_compute. reflexivity.
  - left. reflexivity.
  - left. reflexivity.
Defined.

End ChainSpec.
